(** * MergedScene: procedural terrain, turbine geometry and animation

    A shallow embedding of [CSC3081_Project/main.cpp].

    Numeric conventions.  A C++ [float] (and the [double] intermediates of
    [sin], [cos] and [M_PI]) is read as a real number: rounding, infinities
    and NaN are not modelled, and the statements that the source can only
    meet "within floating-point tolerance" are proved exactly on the reals.
    Where a comparison sits on a rounding boundary (the thresholds of the
    terrain classifier, the wrap of the blade angle) it is replayed on IEEE
    single precision.
    An [int] is a [Z]; every loop counter of the program stays far below
    [INT_MAX], so no wrap-around is written out.  An [unsigned char] key is
    an [ascii].

    Effects.  The globals the animation and the keyboard touch are one
    record that the handlers pass along.  The OpenGL calls of the drawing
    routines are a trace of commands (with the floating-point divisions the
    routines perform interleaved), interpreted afterwards by a small
    model of the fixed-function modelview stack. *)

From Stdlib Require Import Reals Lra Lia ZArith Ascii SpecFloat.
From stdpp Require Import base list.

Open Scope R_scope.

(** ** Globals *)

Record Camera : Type := mkCamera {
  cam_x : R; cam_y : R; cam_z : R;
  lookX : R; lookY : R; lookZ : R;
  pitch : R; yaw : R;
  zoom : R;
  speed : R
}.

Record Globals : Type := mkGlobals {
  _angle : R;
  camera : Camera;
  windSpeed : R;
  bladeRotation : R;
  nacelle_yaw : R;
  towerSway : R;
  timeAccumulator : R;
  animationEnabled : bool;
  lightingEnabled : bool;
  projectionMode : Z
}.

(** The initialisers of the globals. *)
Definition camera0 : Camera :=
  mkCamera 50 30 80 0 20 0 (-10) (-30) 45 2.

Definition globals0 : Globals :=
  mkGlobals 0 camera0 1 0 0 0 0 true true 0.

Definition set_angle (a : R) (g : Globals) : Globals :=
  mkGlobals a (camera g) (windSpeed g) (bladeRotation g) (nacelle_yaw g)
    (towerSway g) (timeAccumulator g) (animationEnabled g)
    (lightingEnabled g) (projectionMode g).

Definition set_camera (c : Camera) (g : Globals) : Globals :=
  mkGlobals (_angle g) c (windSpeed g) (bladeRotation g) (nacelle_yaw g)
    (towerSway g) (timeAccumulator g) (animationEnabled g)
    (lightingEnabled g) (projectionMode g).

Definition set_windSpeed (w : R) (g : Globals) : Globals :=
  mkGlobals (_angle g) (camera g) w (bladeRotation g) (nacelle_yaw g)
    (towerSway g) (timeAccumulator g) (animationEnabled g)
    (lightingEnabled g) (projectionMode g).

Definition set_animationEnabled (b : bool) (g : Globals) : Globals :=
  mkGlobals (_angle g) (camera g) (windSpeed g) (bladeRotation g)
    (nacelle_yaw g) (towerSway g) (timeAccumulator g) b
    (lightingEnabled g) (projectionMode g).

Definition set_lightingEnabled (b : bool) (g : Globals) : Globals :=
  mkGlobals (_angle g) (camera g) (windSpeed g) (bladeRotation g)
    (nacelle_yaw g) (towerSway g) (timeAccumulator g) (animationEnabled g)
    b (projectionMode g).

Definition set_projectionMode (m : Z) (g : Globals) : Globals :=
  mkGlobals (_angle g) (camera g) (windSpeed g) (bladeRotation g)
    (nacelle_yaw g) (towerSway g) (timeAccumulator g) (animationEnabled g)
    (lightingEnabled g) m.

(** The comparisons [x >= y], [x > y] and [x < y] of the source, as
    booleans. *)
Definition fgeb (x y : R) : bool := if Rge_dec x y then true else false.
Definition fgtb (x y : R) : bool := if Rgt_dec x y then true else false.
Definition fltb (x y : R) : bool := if Rlt_dec x y then true else false.

(** ** update (the idle callback)

    [glutPostRedisplay] only asks for a redraw and touches no global. *)
Definition update (g : Globals) : Globals :=
  let g1 :=
    if animationEnabled g then
      let t := timeAccumulator g + 0.016 in
      let b := bladeRotation g + windSpeed g * 2 in
      let b := if fgeb b 360 then b - 360 else b in
      mkGlobals (_angle g) (camera g) (windSpeed g)
        b
        (sin (t * 0.3) * 15)
        (sin (t * 0.8) * 0.5 + cos (t * 0.6) * 0.3)
        t
        (animationEnabled g) (lightingEnabled g) (projectionMode g)
    else g in
  let a := _angle g1 + 0.02 in
  let a := if fgeb a 360 then a - 360 else a in
  set_angle a g1.

(** ** keyboardHandler

    [None] is [std::exit(0)].  The [reshape] calls of the projection and
    zoom keys only reload the projection matrix. *)
Definition keyboardHandler (key : ascii) (g : Globals) : option Globals :=
  let c := camera g in
  match key with
  | "027"%char => None
  | "w"%char | "W"%char =>
      let x' := cam_x c + (lookX c - cam_x c) * 0.1 in
      let z' := cam_z c + (lookZ c - cam_z c) * 0.1 in
      Some (set_camera (mkCamera x' (cam_y c) z' (lookX c) (lookY c) (lookZ c)
                          (pitch c) (yaw c) (zoom c) (speed c)) g)
  | "s"%char | "S"%char =>
      let x' := cam_x c - (lookX c - cam_x c) * 0.1 in
      let z' := cam_z c - (lookZ c - cam_z c) * 0.1 in
      Some (set_camera (mkCamera x' (cam_y c) z' (lookX c) (lookY c) (lookZ c)
                          (pitch c) (yaw c) (zoom c) (speed c)) g)
  | "a"%char | "A"%char =>
      Some (set_camera (mkCamera (cam_x c - speed c) (cam_y c) (cam_z c)
                          (lookX c) (lookY c) (lookZ c)
                          (pitch c) (yaw c) (zoom c) (speed c)) g)
  | "d"%char | "D"%char =>
      Some (set_camera (mkCamera (cam_x c + speed c) (cam_y c) (cam_z c)
                          (lookX c) (lookY c) (lookZ c)
                          (pitch c) (yaw c) (zoom c) (speed c)) g)
  | "q"%char | "Q"%char =>
      Some (set_camera (mkCamera (cam_x c) (cam_y c + speed c) (cam_z c)
                          (lookX c) (lookY c) (lookZ c)
                          (pitch c) (yaw c) (zoom c) (speed c)) g)
  | "e"%char | "E"%char =>
      Some (set_camera (mkCamera (cam_x c) (cam_y c - speed c) (cam_z c)
                          (lookX c) (lookY c) (lookZ c)
                          (pitch c) (yaw c) (zoom c) (speed c)) g)
  | " "%char => Some (set_animationEnabled (negb (animationEnabled g)) g)
  | "l"%char | "L"%char =>
      Some (set_lightingEnabled (negb (lightingEnabled g)) g)
  | "p"%char | "P"%char =>
      Some (set_projectionMode (Z.rem (projectionMode g + 1) 2) g)
  | "1"%char => Some (set_windSpeed (Rmax 0.1 (windSpeed g - 0.2)) g)
  | "2"%char => Some (set_windSpeed (Rmin 5.0 (windSpeed g + 0.2)) g)
  | "+"%char =>
      Some (set_camera (mkCamera (cam_x c) (cam_y c) (cam_z c)
                          (lookX c) (lookY c) (lookZ c) (pitch c) (yaw c)
                          (Rmax 10 (zoom c - 2)) (speed c)) g)
  | "-"%char =>
      Some (set_camera (mkCamera (cam_x c) (cam_y c) (cam_z c)
                          (lookX c) (lookY c) (lookZ c) (pitch c) (yaw c)
                          (Rmin 120 (zoom c + 2)) (speed c)) g)
  | "r"%char | "R"%char =>
      Some (set_camera (mkCamera 50 30 80 0 20 0 (pitch c) (yaw c) 45
                          (speed c)) g)
  | _ => Some g
  end.

(** ** Loops

    [for (int i = 0; i < n; ++i) body] as a fold over [0 .. n-1]; no
    iteration at all when [n <= 0]. *)
Definition for_upto {S : Type} (n : Z) (body : Z -> S -> S) (s : S) : S :=
  fold_left (fun s i => body i s) (seqZ 0 n) s.

(** ** The C library's pseudo-random generator

    [rand_seq seed k] is the value the [k]-th call of [rand()] returns after
    [srand(seed)]; the generator itself belongs to the C library.  The
    state of the generator is the seed and the number of calls made. *)
Record Rng : Type := mkRng { rng_seed : Z; rng_calls : nat }.

Definition srand (seed : Z) (_ : Rng) : Rng := mkRng seed 0.

Definition rand (rand_seq : Z -> nat -> Z) (r : Rng) : Z * Rng :=
  (rand_seq (rng_seed r) (rng_calls r),
   mkRng (rng_seed r) (S (rng_calls r))).

(** ** Terrain *)

Definition TERRAIN_SIZE : Z := 50.
Definition TERRAIN_SCALE : R := 2.
Definition HEIGHT_SCALE : R := 3.

#[global] Instance R_inhabited : Inhabited R := populate 0.

(** [v[i][j]] and [v[i][j] = x] on a vector of vectors.  The program only
    indexes inside the bounds it has just resized to; outside them the
    read yields the default and the write does nothing. *)
Definition at2 {A : Type} `{Inhabited A} (v : list (list A)) (i j : Z) : A :=
  (v !!! Z.to_nat i) !!! Z.to_nat j.

Definition set2 {A : Type} (i j : Z) (x : A) (v : list (list A))
  : list (list A) :=
  alter (fun row => <[Z.to_nat j := x]> row) (Z.to_nat i) v.

(** [v[i].resize(n)], new cells value-initialised to [d]. *)
Definition resize_row {A : Type} (d : A) (i n : Z) (v : list (list A))
  : list (list A) :=
  alter (resize (Z.to_nat n) d) (Z.to_nat i) v.

Definition generateTerrain (terrainHeights : list (list R))
  : list (list R) :=
  let terrainHeights := resize (Z.to_nat (TERRAIN_SIZE + 1)) [] terrainHeights in
  for_upto (TERRAIN_SIZE + 1) (fun i terrainHeights =>
    let terrainHeights := resize_row 0 i (TERRAIN_SIZE + 1) terrainHeights in
    for_upto (TERRAIN_SIZE + 1) (fun j terrainHeights =>
      let h := sin (IZR i * 0.3) * cos (IZR j * 0.3) * HEIGHT_SCALE in
      let h := h + sin (IZR i * 0.1) * sin (IZR j * 0.15) * HEIGHT_SCALE * 2 in
      let h := h + sin (IZR i * 0.05) * cos (IZR j * 0.08) * HEIGHT_SCALE * 0.5 in
      set2 i j h terrainHeights) terrainHeights) terrainHeights.

Section TerrainTextures.

Variable rand_seq : Z -> nat -> Z.

(** The body of the inner loop for one cell: it reads the elevation,
    draws [rf], stores the tier label and, on [rf > 0.95], overwrites it
    with [rand() % 4]. *)
Definition classifyCell (terrainHeights : list (list R)) (i j : Z)
    (st : list (list Z) * Rng) : list (list Z) * Rng :=
  let '(terrainTextures, rng) := st in
  let height := at2 terrainHeights i j in
  let '(v, rng) := rand rand_seq rng in
  let rf := IZR (Z.rem v 100) / 100 in
  let terrainTextures :=
    if fltb height (-2) then
      set2 i j (if fgtb rf 0.7 then 3%Z else 2%Z) terrainTextures
    else if fltb height 2 then
      set2 i j (if fgtb rf 0.6 then 3%Z else 0%Z) terrainTextures
    else if fltb height 5 then
      set2 i j (if fgtb rf 0.5 then 1%Z else 0%Z) terrainTextures
    else set2 i j 1%Z terrainTextures in
  if fgtb rf 0.95 then
    let '(v', rng) := rand rand_seq rng in
    (set2 i j (Z.rem v' 4) terrainTextures, rng)
  else (terrainTextures, rng).

Definition generateMultiTextureTerrain (terrainHeights : list (list R))
    (st : list (list Z) * Rng) : list (list Z) * Rng :=
  let '(terrainTextures, rng) := st in
  let terrainTextures :=
    resize (Z.to_nat (TERRAIN_SIZE + 1)) [] terrainTextures in
  let rng := srand 42 rng in
  for_upto (TERRAIN_SIZE + 1) (fun i st =>
    let st := (resize_row 0%Z i (TERRAIN_SIZE + 1) (fst st), snd st) in
    for_upto (TERRAIN_SIZE + 1) (classifyCell terrainHeights i) st)
    (terrainTextures, rng).

End TerrainTextures.

(** ** The drawing routines: a trace of OpenGL commands

    A drawing routine is run in a writer monad: it returns its value
    together with the commands it issued, in order.  [fdiv x y] is not an
    OpenGL command: it records that the routine computed the
    floating-point quotient [x / y] at that point. *)

Definition V3 : Type := (R * R * R)%type.

Inductive GLcmd : Type :=
| glPushMatrix
| glPopMatrix
| glTranslatef (x y z : R)
| glRotatef (angle x y z : R)
| glScalef (x y z : R)
| glBegin_GL_QUADS
| glEnd
| glNormal3f (x y z : R)
| glTexCoord2f (s t : R)
| glVertex3f (x y z : R)
| glColor3f (r g b : R)
| glEnable_GL_TEXTURE_2D
| glDisable_GL_TEXTURE_2D
| glBindTexture_GL_TEXTURE_2D (textureID : Z)
| gluCylinder (base top height : R) (slices stacks : Z)
| gluDisk (inner outer : R) (slices loops : Z)
| glutSolidSphere (radius : R) (slices stacks : Z)
| glutSolidCube (size : R)
| fdiv (x y : R).

Definition GL (A : Type) : Type := (A * list GLcmd)%type.

Definition ret {A : Type} (a : A) : GL A := (a, []).

Definition bind {A B : Type} (m : GL A) (k : A -> GL B) : GL B :=
  (fst (k (fst m)), snd m ++ snd (k (fst m))).

Definition emit (c : GLcmd) : GL unit := (tt, [c]).

Definition trace {A : Type} (m : GL A) : list GLcmd := snd m.

(** The quotient [x / y], recorded. *)
Definition quot (x y : R) : GL R := (x / y, [fdiv x y]).

Notation "x <- m ;; k" := (bind m (fun x => k))
  (at level 100, m at next level, right associativity).
Notation "m ;; k" := (bind m (fun _ => k))
  (at level 100, right associativity).

(** [for (int i = 0; i < n; ++i) body] in the monad. *)
Definition for_gl (n : Z) (body : Z -> GL unit) : GL unit :=
  for_upto n (fun i done => done ;; body i) (ret tt).

(** [M_PI], as the source defines it when [<cmath>] does not. *)
Definition M_PI : R := 3.14159265358979323846.

Record TurbineGeometry : Type := mkTurbineGeometry {
  baseRadius : R;
  topRadius : R;
  height : R;
  segments : Z;
  nacelleLength : R;
  nacelleWidth : R;
  nacelleHeight : R;
  bladeLength : R;
  hubRadius : R;
  bladeSegments : Z;
  foundationRadius : R;
  foundationHeight : R
}.

Definition turbineParams : TurbineGeometry :=
  mkTurbineGeometry 3.5 1.8 80 24 12 4 4.5 45 2.2 20 8 2.

(** The texture names the turbine binds; [init] fills them in. *)
Record Textures : Type := mkTextures {
  metalTexture : Z;
  concreteTexture : Z;
  bladeTexture : Z;
  nacelleTexture : Z
}.

Definition applyTexture (textureID : Z) : GL unit :=
  if Z.eqb textureID 0 then emit glDisable_GL_TEXTURE_2D
  else
    emit glEnable_GL_TEXTURE_2D ;;
    emit (glBindTexture_GL_TEXTURE_2D textureID) ;;
    emit (glColor3f 1 1 1).

(** The quadric object and its texture and normal settings carry no
    geometry; the three GLU calls that draw are kept. *)
Definition drawSolidCylinder (baseRadius topRadius height : R)
    (segments : Z) : GL unit :=
  emit (gluCylinder baseRadius topRadius height segments 1) ;;
  emit (gluDisk 0 baseRadius segments 1) ;;
  emit glPushMatrix ;;
  emit (glTranslatef 0 0 height) ;;
  emit (gluDisk 0 topRadius segments 1) ;;
  emit glPopMatrix.

Definition drawEllipsoid (a b c : R) (segments : Z) : GL unit :=
  for_gl segments (fun i =>
    for_gl segments (fun j =>
      q <- quot (IZR i) (IZR segments) ;; let u1 := q * M_PI in
      q <- quot (IZR (i + 1)) (IZR segments) ;; let u2 := q * M_PI in
      q <- quot (IZR j) (IZR segments) ;; let v1 := q * (2 * M_PI) in
      q <- quot (IZR (j + 1)) (IZR segments) ;; let v2 := q * (2 * M_PI) in

      emit glBegin_GL_QUADS ;;
      let x1 := a * cos u1 * cos v1 in
      let y1 := b * sin u1 in
      let z1 := c * cos u1 * sin v1 in
      nx <- quot x1 a ;; ny <- quot y1 b ;; nz <- quot z1 c ;;
      emit (glNormal3f nx ny nz) ;;
      s <- quot (IZR j) (IZR segments) ;; t <- quot (IZR i) (IZR segments) ;;
      emit (glTexCoord2f s t) ;; emit (glVertex3f x1 y1 z1) ;;

      let x2 := a * cos u2 * cos v1 in
      let y2 := b * sin u2 in
      let z2 := c * cos u2 * sin v1 in
      nx <- quot x2 a ;; ny <- quot y2 b ;; nz <- quot z2 c ;;
      emit (glNormal3f nx ny nz) ;;
      s <- quot (IZR j) (IZR segments) ;;
      t <- quot (IZR (i + 1)) (IZR segments) ;;
      emit (glTexCoord2f s t) ;; emit (glVertex3f x2 y2 z2) ;;

      let x3 := a * cos u2 * cos v2 in
      let y3 := b * sin u2 in
      let z3 := c * cos u2 * sin v2 in
      nx <- quot x3 a ;; ny <- quot y3 b ;; nz <- quot z3 c ;;
      emit (glNormal3f nx ny nz) ;;
      s <- quot (IZR (j + 1)) (IZR segments) ;;
      t <- quot (IZR (i + 1)) (IZR segments) ;;
      emit (glTexCoord2f s t) ;; emit (glVertex3f x3 y3 z3) ;;

      let x4 := a * cos u1 * cos v2 in
      let y4 := b * sin u1 in
      let z4 := c * cos u1 * sin v2 in
      nx <- quot x4 a ;; ny <- quot y4 b ;; nz <- quot z4 c ;;
      emit (glNormal3f nx ny nz) ;;
      s <- quot (IZR (j + 1)) (IZR segments) ;;
      t <- quot (IZR i) (IZR segments) ;;
      emit (glTexCoord2f s t) ;; emit (glVertex3f x4 y4 z4) ;;
      emit glEnd)).

Definition drawTorus (majorRadius minorRadius : R)
    (majorSegments minorSegments : Z) : GL unit :=
  for_gl majorSegments (fun i =>
    for_gl minorSegments (fun j =>
      q <- quot (IZR i) (IZR majorSegments) ;; let u1 := q * (2 * M_PI) in
      q <- quot (IZR (i + 1)) (IZR majorSegments) ;;
      let u2 := q * (2 * M_PI) in
      q <- quot (IZR j) (IZR minorSegments) ;; let v1 := q * (2 * M_PI) in
      q <- quot (IZR (j + 1)) (IZR minorSegments) ;;
      let v2 := q * (2 * M_PI) in

      emit glBegin_GL_QUADS ;;
      (* vertex 0 *)
      let x0 := (majorRadius + minorRadius * cos v1) * cos u1 in
      let y0 := (majorRadius + minorRadius * cos v1) * sin u1 in
      let z0 := minorRadius * sin v1 in
      let nx0 := cos v1 * cos u1 in
      let ny0 := cos v1 * sin u1 in
      let nz0 := sin v1 in
      emit (glNormal3f nx0 ny0 nz0) ;;
      s <- quot u1 (2 * M_PI) ;; t <- quot v1 (2 * M_PI) ;;
      emit (glTexCoord2f s t) ;; emit (glVertex3f x0 y0 z0) ;;

      (* vertex 1 *)
      let x1 := (majorRadius + minorRadius * cos v1) * cos u2 in
      let y1 := (majorRadius + minorRadius * cos v1) * sin u2 in
      let z1 := minorRadius * sin v1 in
      let nx1 := cos v1 * cos u2 in
      let ny1 := cos v1 * sin u2 in
      let nz1 := sin v1 in
      emit (glNormal3f nx1 ny1 nz1) ;;
      s <- quot u2 (2 * M_PI) ;; t <- quot v1 (2 * M_PI) ;;
      emit (glTexCoord2f s t) ;; emit (glVertex3f x1 y1 z1) ;;

      (* vertex 2 *)
      let x2 := (majorRadius + minorRadius * cos v2) * cos u2 in
      let y2 := (majorRadius + minorRadius * cos v2) * sin u2 in
      let z2 := minorRadius * sin v2 in
      let nx2 := cos v2 * cos u2 in
      let ny2 := cos v2 * sin u2 in
      let nz2 := sin v2 in
      emit (glNormal3f nx2 ny2 nz2) ;;
      s <- quot u2 (2 * M_PI) ;; t <- quot v2 (2 * M_PI) ;;
      emit (glTexCoord2f s t) ;; emit (glVertex3f x2 y2 z2) ;;

      (* vertex 3 *)
      let x3 := (majorRadius + minorRadius * cos v2) * cos u1 in
      let y3 := (majorRadius + minorRadius * cos v2) * sin u1 in
      let z3 := minorRadius * sin v2 in
      let nx3 := cos v2 * cos u1 in
      let ny3 := cos v2 * sin u1 in
      let nz3 := sin v2 in
      emit (glNormal3f nx3 ny3 nz3) ;;
      s <- quot u1 (2 * M_PI) ;; t <- quot v2 (2 * M_PI) ;;
      emit (glTexCoord2f s t) ;; emit (glVertex3f x3 y3 z3) ;;

      emit glEnd)).

Section Turbine.

Variable turbineParams : TurbineGeometry.
Variable textures : Textures.

(** The [angleOffset] argument and the locals [y2] and [twist2] are not
    used by the body. *)
Definition drawBlade (angleOffset : R) : GL unit :=
  applyTexture (bladeTexture textures) ;;
  emit (glColor3f 0.95 0.95 0.95) ;;

  let segments := bladeSegments turbineParams in
  segLen <- quot (bladeLength turbineParams) (IZR segments) ;;

  for_gl segments (fun i =>
    t1 <- quot (IZR i) (IZR segments) ;;
    t2 <- quot (IZR (i + 1)) (IZR segments) ;;
    let width1 := hubRadius turbineParams * (1 - t1 * 0.8) in
    let width2 := hubRadius turbineParams * (1 - t2 * 0.8) in
    let thick1 := width1 * 0.15 in
    let thick2 := width2 * 0.15 in
    let y1 := t1 * bladeLength turbineParams in
    let twist1 := t1 * 25 in

    emit glPushMatrix ;;
    emit (glTranslatef 0 y1 0) ;;
    emit (glRotatef twist1 0 1 0) ;;

    emit glBegin_GL_QUADS ;;
    (* top *)
    emit (glNormal3f 0 0 1) ;;
    emit (glTexCoord2f 0 t1) ;; emit (glVertex3f (- width1) 0 thick1) ;;
    emit (glTexCoord2f 1 t1) ;; emit (glVertex3f width1 0 thick1) ;;
    emit (glTexCoord2f 1 t2) ;; emit (glVertex3f width2 segLen thick2) ;;
    emit (glTexCoord2f 0 t2) ;; emit (glVertex3f (- width2) segLen thick2) ;;
    (* bottom *)
    emit (glNormal3f 0 0 (-1)) ;;
    emit (glTexCoord2f 0 t1) ;; emit (glVertex3f (- width1) 0 (- thick1)) ;;
    emit (glTexCoord2f 0 t2) ;;
    emit (glVertex3f (- width2) segLen (- thick2)) ;;
    emit (glTexCoord2f 1 t2) ;; emit (glVertex3f width2 segLen (- thick2)) ;;
    emit (glTexCoord2f 1 t1) ;; emit (glVertex3f width1 0 (- thick1)) ;;
    (* leading *)
    emit (glNormal3f 1 0 0) ;;
    emit (glTexCoord2f 0 t1) ;; emit (glVertex3f width1 0 thick1) ;;
    emit (glTexCoord2f 0 t1) ;; emit (glVertex3f width1 0 (- thick1)) ;;
    emit (glTexCoord2f 1 t2) ;; emit (glVertex3f width2 segLen (- thick2)) ;;
    emit (glTexCoord2f 1 t2) ;; emit (glVertex3f width2 segLen thick2) ;;
    (* trailing *)
    emit (glNormal3f (-1) 0 0) ;;
    emit (glTexCoord2f 0 t1) ;; emit (glVertex3f (- width1) 0 thick1) ;;
    emit (glTexCoord2f 1 t2) ;; emit (glVertex3f (- width2) segLen thick2) ;;
    emit (glTexCoord2f 1 t2) ;;
    emit (glVertex3f (- width2) segLen (- thick2)) ;;
    emit (glTexCoord2f 0 t1) ;; emit (glVertex3f (- width1) 0 (- thick1)) ;;
    emit glEnd ;;

    emit glPopMatrix) ;;

  emit (glColor3f 1 1 1).

Definition drawHub : GL unit :=
  applyTexture (metalTexture textures) ;;
  emit (glColor3f 0.8 0.8 0.8) ;;
  emit (glutSolidSphere (hubRadius turbineParams) 16 16) ;;
  emit (glColor3f 1 1 1) ;;
  (* small bolts *)
  for_gl 12 (fun i =>
    angle <- quot (IZR i * 30 * M_PI) 180 ;;
    let x := cos angle * hubRadius turbineParams * 0.8 in
    let z := sin angle * hubRadius turbineParams * 0.8 in
    emit glPushMatrix ;;
    emit (glTranslatef x 0 z) ;;
    emit (glutSolidSphere 0.15 8 8) ;;
    emit glPopMatrix).

Definition drawRotorSystem (g : Globals) : GL unit :=
  drawHub ;;
  for_gl 3 (fun i =>
    emit glPushMatrix ;;
    emit (glRotatef (bladeRotation g + IZR i * 120) 1 0 0) ;;
    drawBlade (IZR i * 120) ;;
    emit glPopMatrix).

Definition drawNacelle : GL unit :=
  applyTexture (nacelleTexture textures) ;;
  emit glPushMatrix ;;
  emit (glRotatef 90 0 1 0) ;;
  drawEllipsoid (nacelleLength turbineParams) (nacelleHeight turbineParams)
    (nacelleWidth turbineParams) 20 ;;
  (* vents / details *)
  emit (glColor3f 0.3 0.3 0.3) ;;
  for_gl 8 (fun i =>
    angle <- quot (IZR i * 45 * M_PI) 180 ;;
    let r := nacelleWidth turbineParams * 0.9 in
    let x := cos angle * r in
    let z := sin angle * r in
    emit glPushMatrix ;;
    emit (glTranslatef x 0 z) ;;
    emit (glScalef 0.2 0.8 0.2) ;;
    emit (glutSolidCube 1) ;;
    emit glPopMatrix) ;;
  emit (glColor3f 1 1 1) ;;
  emit glPopMatrix.

Definition drawTurbineTower : GL unit :=
  applyTexture (metalTexture textures) ;;
  emit glPushMatrix ;;
  emit (glRotatef (-90) 1 0 0) ;;
  drawSolidCylinder (baseRadius turbineParams) (topRadius turbineParams)
    (height turbineParams) (segments turbineParams) ;;
  emit glPopMatrix.

Definition drawFoundation : GL unit :=
  emit glPushMatrix ;;
  applyTexture (concreteTexture textures) ;;
  emit (glTranslatef 0 (- foundationHeight turbineParams * 0.5) 0) ;;

  emit glPushMatrix ;;
  emit (glRotatef (-90) 1 0 0) ;;
  drawSolidCylinder (foundationRadius turbineParams)
    (foundationRadius turbineParams) (foundationHeight turbineParams) 32 ;;
  emit glPopMatrix ;;

  emit glPushMatrix ;;
  emit (glTranslatef 0 (foundationHeight turbineParams * 0.8) 0) ;;
  emit (glRotatef (-90) 1 0 0) ;;
  drawTorus (foundationRadius turbineParams * 1.1) 0.5 24 16 ;;
  emit glPopMatrix ;;
  emit glPopMatrix.

Definition drawWindTurbine (g : Globals) : GL unit :=
  emit glPushMatrix ;;

  (* Foundation *)
  drawFoundation ;;

  (* Tower *)
  emit glPushMatrix ;;
  emit (glTranslatef 0 (foundationHeight turbineParams) 0) ;;
  drawTurbineTower ;;
  emit glPopMatrix ;;

  (* Nacelle & rotor at top *)
  emit glPushMatrix ;;
  emit (glTranslatef 0
          (foundationHeight turbineParams + height turbineParams) 0) ;;
  emit (glRotatef (nacelle_yaw g) 0 1 0) ;;
  drawNacelle ;;
  emit (glTranslatef (nacelleLength turbineParams * 0.6) 0 0) ;;
  drawRotorSystem g ;;
  emit glPopMatrix ;;

  emit glPopMatrix.

End Turbine.

(** ** Reading a trace *)

(** The floating-point divisions a routine performed, as (dividend,
    divisor) pairs in order. *)
Definition divisions (t : list GLcmd) : list (R * R) :=
  omap (fun c => match c with fdiv x y => Some (x, y) | _ => None end) t.

(** The positions handed to [glVertex3f], in order. *)
Definition positions (t : list GLcmd) : list V3 :=
  omap (fun c => match c with glVertex3f x y z => Some (x, y, z) | _ => None end)
    t.

(** A vertex as OpenGL assembles it: [glVertex3f] takes the normal and the
    texture coordinate that are current when it is called. *)
Record Vertex : Type := mkVertex {
  v_position : V3;
  v_normal : V3;
  v_texcoord : R * R
}.

Fixpoint vertices_from (n : V3) (tc : R * R) (t : list GLcmd) : list Vertex :=
  match t with
  | [] => []
  | glNormal3f x y z :: k => vertices_from (x, y, z) tc k
  | glTexCoord2f s u :: k => vertices_from n (s, u) k
  | glVertex3f x y z :: k => mkVertex (x, y, z) n tc :: vertices_from n tc k
  | _ :: k => vertices_from n tc k
  end.

(** OpenGL's initial current normal is (0,0,1), its initial texture
    coordinate (0,0). *)
Definition vertices (t : list GLcmd) : list Vertex :=
  vertices_from (0, 0, 1) (0, 0) t.

Definition norm (p : V3) : R :=
  let '(x, y, z) := p in sqrt (x * x + y * y + z * z).

(** Distance from [p] to the circle of radius [R0] centred at the origin in
    the plane z = 0. *)
Definition ring_distance (R0 : R) (p : V3) : R :=
  let '(x, y, z) := p in
  sqrt ((sqrt (x * x + y * y) - R0) * (sqrt (x * x + y * y) - R0) + z * z).

(** Modelled from the spec: the fixed-function modelview stack the drawing
    routines rely on ("every primitive is expressed relative to its parent
    frame", "order of translate, rotate, draw") belongs to OpenGL and is
    not in the sources.  A modelview matrix is kept as the map it applies
    to a local point.  [glTranslatef], [glRotatef] (angle in degrees, axis
    normalised) and [glScalef] compose on the right; [glPushMatrix] saves
    the current map and [glPopMatrix] restores it (on an empty stack it is
    an error that changes nothing). *)
Definition translate (x y z : R) (p : V3) : V3 :=
  let '(px, py, pz) := p in (px + x, py + y, pz + z).

Definition scale (x y z : R) (p : V3) : V3 :=
  let '(px, py, pz) := p in (px * x, py * y, pz * z).

Definition rotate (angle x y z : R) (p : V3) : V3 :=
  let n := sqrt (x * x + y * y + z * z) in
  let x := x / n in
  let y := y / n in
  let z := z / n in
  let c := cos (angle * PI / 180) in
  let s := sin (angle * PI / 180) in
  let '(px, py, pz) := p in
  ((x * x * (1 - c) + c) * px + (x * y * (1 - c) - z * s) * py
     + (x * z * (1 - c) + y * s) * pz,
   (y * x * (1 - c) + z * s) * px + (y * y * (1 - c) + c) * py
     + (y * z * (1 - c) - x * s) * pz,
   (x * z * (1 - c) - y * s) * px + (y * z * (1 - c) + x * s) * py
     + (z * z * (1 - c) + c) * pz).

Definition Frame : Type := V3 -> V3.

(** The modelview map and the saved maps after the commands of [t]. *)
Fixpoint run (cur : Frame) (stack : list Frame) (t : list GLcmd)
  : Frame * list Frame :=
  match t with
  | [] => (cur, stack)
  | glPushMatrix :: k => run cur (cur :: stack) k
  | glPopMatrix :: k =>
      match stack with
      | m :: stack' => run m stack' k
      | [] => run cur [] k
      end
  | glTranslatef x y z :: k => run (fun p => cur (translate x y z p)) stack k
  | glRotatef a x y z :: k => run (fun p => cur (rotate a x y z p)) stack k
  | glScalef x y z :: k => run (fun p => cur (scale x y z p)) stack k
  | _ :: k => run cur stack k
  end.

(** Modelled from the spec: [gluCylinder] and [gluDisk] belong to GLU.  The
    cylinder's "lateral surface [runs] from baseRadius at z=0 to topRadius
    at z=height" of the frame it is drawn in, and a disk lies in the plane
    z=0 of its frame.  [quadrics t] lists the cylinders and disks of a
    trace, each with the modelview map in force when it is drawn. *)
Definition is_quadric (c : GLcmd) : bool :=
  match c with
  | gluCylinder _ _ _ _ _ | gluDisk _ _ _ _ => true
  | _ => false
  end.

(** The commands that neither draw a quadric nor touch the modelview
    stack. *)
Definition is_inert (c : GLcmd) : bool :=
  match c with
  | glPushMatrix | glPopMatrix
  | glTranslatef _ _ _ | glRotatef _ _ _ _ | glScalef _ _ _
  | gluCylinder _ _ _ _ _ | gluDisk _ _ _ _ => false
  | _ => true
  end.

Fixpoint quadrics_from (cur : Frame) (stack : list Frame) (t : list GLcmd)
  : list (GLcmd * Frame) :=
  match t with
  | [] => []
  | c :: k =>
      (if is_quadric c then [(c, cur)] else [])
        ++ quadrics_from (run cur stack [c]).1 (run cur stack [c]).2 k
  end.

Definition quadrics (t : list GLcmd) : list (GLcmd * Frame) :=
  quadrics_from (fun p => p) [] t.

(** Modelled from the spec: the points of a quadric in the frame it is drawn
    in.  The lateral surface of a cylinder runs "from baseRadius at z=0 to
    topRadius at z=height", its radius interpolated linearly; a disk (a
    cap) is the annulus between its two radii in the plane z=0. *)
Definition on_quadric (c : GLcmd) (p : V3) : Prop :=
  let '(x, y, z) := p in
  match c with
  | gluCylinder base top height _ _ =>
      0 <= z <= height
      /\ x * x + y * y
         = (base + (top - base) * (z / height))
           * (base + (top - base) * (z / height))
  | gluDisk inner outer _ _ =>
      z = 0 /\ inner * inner <= x * x + y * y <= outer * outer
  | _ => False
  end.

(** The height of a point above the ground of the scene: its y. *)
Definition height_of (p : V3) : R := p.1.2.

(** ** specialKeys

    The GLUT codes of the four arrow keys, from the GLUT header. *)
Definition GLUT_KEY_LEFT : Z := 100.
Definition GLUT_KEY_UP : Z := 101.
Definition GLUT_KEY_RIGHT : Z := 102.
Definition GLUT_KEY_DOWN : Z := 103.

Definition specialKeys (key : Z) (g : Globals) : Globals :=
  let c := camera g in
  let pitch' :=
    if Z.eqb key GLUT_KEY_UP then pitch c + 2
    else if Z.eqb key GLUT_KEY_DOWN then pitch c - 2
    else pitch c in
  let yaw' :=
    if Z.eqb key GLUT_KEY_LEFT then yaw c - 2
    else if Z.eqb key GLUT_KEY_RIGHT then yaw c + 2
    else yaw c in
  let pitchRad := pitch' * M_PI / 180 in
  let yawRad := yaw' * M_PI / 180 in
  set_camera
    (mkCamera (cam_x c) (cam_y c) (cam_z c)
       (cam_x c + cos pitchRad * sin yawRad * 50)
       (cam_y c + sin pitchRad * 50)
       (cam_z c + cos pitchRad * cos yawRad * 50)
       pitch' yaw' (zoom c) (speed c)) g.

(** ** Runs of the program

    The globals start from their initialisers; afterwards GLUT calls the
    idle callback and the two keyboard callbacks in any order. *)
Inductive reachable : Globals -> Prop :=
| reach_init : reachable globals0
| reach_update g : reachable g -> reachable (update g)
| reach_keyboard key g g' :
    reachable g -> keyboardHandler key g = Some g' -> reachable g'
| reach_special key g : reachable g -> reachable (specialKeys key g).

(** ** The classification rule as the specification words it *)

Inductive SurfaceLabel : Type := Grass | Rock | LabelA | LabelB.

Definition label_code (l : SurfaceLabel) : Z :=
  match l with
  | Grass => 0
  | Rock => 1
  | LabelA => 2
  | LabelB => 3
  end.

(** The label a code stands for ([rand() % 4] yields a code). *)
Definition label_of_code (c : Z) : SurfaceLabel :=
  match c with
  | 0%Z => Grass
  | 1%Z => Rock
  | 2%Z => LabelA
  | _ => LabelB
  end.

(** Steps 1 to 4: the tier decided by the elevation [h] and the draw [r]. *)
Definition tier_label (h r : R) : SurfaceLabel :=
  if fltb h (-2) then (if fgtb r 0.7 then LabelB else LabelA)
  else if fltb h 2 then (if fgtb r 0.6 then LabelB else Grass)
  else if fltb h 5 then (if fgtb r 0.5 then Rock else Grass)
  else Rock.

(** Step 5: the override, tested on the same [r]. *)
Definition spec_label (h r : R) (pick : SurfaceLabel) : SurfaceLabel :=
  if fgtb r 0.95 then pick else tier_label h r.

(** ** Counting the draws of the terrain classifier *)

Section TerrainDraws.

Variable rand_seq : Z -> nat -> Z.

(** The value [rf] computed from the [k]-th number of the stream seeded
    with 42. *)
Definition rf_at (k : nat) : R := IZR (Z.rem (rand_seq 42 k) 100) / 100.

(** The calls of [rand()] made by the first [n] cells, in the order the
    loops visit them. *)
Fixpoint calls_before (n : nat) : nat :=
  match n with
  | O => O
  | S m =>
      let c := calls_before m in
      if fgtb (rf_at c) 0.95 then (c + 2)%nat else (c + 1)%nat
  end.

(** How many of the first [n] cells triggered the override. *)
Fixpoint overrides_before (n : nat) : nat :=
  match n with
  | O => O
  | S m =>
      (overrides_before m
       + if fgtb (rf_at (calls_before m)) 0.95 then 1 else 0)%nat
  end.

(** The rank of cell (i,j) in the order of the loops. *)
Definition cell_rank (i j : Z) : nat :=
  Z.to_nat (i * (TERRAIN_SIZE + 1) + j).

End TerrainDraws.

(** ** Single precision, for the places where rounding could matter

    IEEE binary32 (24 bits of precision, exponents below 128) from the
    standard library's executable specification: the conversion of an
    [int], the correctly rounded operations, and a decimal literal [n/d]
    as the nearest single to that quotient.  Used to check that the
    comparisons the real-number reading decides come out the same on
    floats. *)
Definition b32_of_int (z : Z) : spec_float := binary_normalize 24 128 z 0 false.
Definition b32_div : spec_float -> spec_float -> spec_float := SFdiv 24 128.
Definition b32_mul : spec_float -> spec_float -> spec_float := SFmul 24 128.
Definition b32_add : spec_float -> spec_float -> spec_float := SFadd 24 128.
Definition b32_sub : spec_float -> spec_float -> spec_float := SFsub 24 128.
Definition b32_literal (n d : Z) : spec_float :=
  b32_div (b32_of_int n) (b32_of_int d).

(** [(rand() % 100) / 100.0f] on a stream value [v]. *)
Definition b32_rf (v : Z) : spec_float :=
  b32_div (b32_of_int (Z.rem v 100)) (b32_of_int 100).

(** ** drawTerrain

    [grassTexture] and [sandTexture] are the two texture names the terrain
    binds; [TERRAIN_SIZE / 2] is the integer quotient. *)
Definition drawTerrain (grassTexture sandTexture : Z)
    (terrainHeights : list (list R)) (terrainTextures : list (list Z))
  : GL unit :=
  emit glEnable_GL_TEXTURE_2D ;;
  for_gl TERRAIN_SIZE (fun i =>
    for_gl TERRAIN_SIZE (fun j =>
      let texType := at2 terrainTextures i j in
      (if Z.eqb texType 0
       then emit (glBindTexture_GL_TEXTURE_2D grassTexture)
       else emit (glBindTexture_GL_TEXTURE_2D sandTexture)) ;;
      let x1 := IZR (i - Z.quot TERRAIN_SIZE 2) * TERRAIN_SCALE in
      let x2 := IZR ((i + 1) - Z.quot TERRAIN_SIZE 2) * TERRAIN_SCALE in
      let z1 := IZR (j - Z.quot TERRAIN_SIZE 2) * TERRAIN_SCALE in
      let z2 := IZR ((j + 1) - Z.quot TERRAIN_SIZE 2) * TERRAIN_SCALE in
      let y1 := at2 terrainHeights i j in
      let y2 := at2 terrainHeights (i + 1) j in
      let y3 := at2 terrainHeights (i + 1) (j + 1) in
      let y4 := at2 terrainHeights i (j + 1) in

      emit glBegin_GL_QUADS ;;
      emit (glNormal3f 0 1 0) ;;
      emit (glTexCoord2f 0 0) ;; emit (glVertex3f x1 y1 z1) ;;
      emit (glTexCoord2f 1 0) ;; emit (glVertex3f x2 y2 z1) ;;
      emit (glTexCoord2f 1 1) ;; emit (glVertex3f x2 y3 z2) ;;
      emit (glTexCoord2f 0 1) ;; emit (glVertex3f x1 y4 z2) ;;
      emit glEnd)) ;;
  emit glDisable_GL_TEXTURE_2D.

(** ** Texture loading and fallback

    Of [createProceduralTexture] the pixel buffer is modelled, the part
    that is the program's own.  [garbage] stands for the indeterminate
    contents of the fresh [new unsigned char[...]] buffer, [tex] for the
    name [glGenTextures] hands out.  The result is that name, the buffer
    given to [glTexImage2D] and the generator's state; [None] is the
    undefined [rand() % 0].  A byte is stored through the conversion to
    [unsigned char]. *)
Definition to_uchar (v : Z) : Z := (v mod 256)%Z.

(** The pixel formula is computed in [int]; the model computes it in [Z],
    which is the same as long as the value stays in the range of [int]. *)
Definition INT_MIN : Z := -2147483648.
Definition INT_MAX : Z := 2147483647.
Definition in_int (v : Z) : Prop := (INT_MIN <= v <= INT_MAX)%Z.

Definition texSize : Z := 128.

Definition createProceduralTexture (rand_seq : Z -> nat -> Z)
    (r g b variation : Z) (tex : Z) (garbage : list Z) (rng : Rng)
  : option (Z * list Z * Rng) :=
  let data := resize (Z.to_nat (texSize * texSize * 3)) 0%Z garbage in
  if Z.eqb variation 0 then None
  else
    let '(data, rng) :=
      for_upto (texSize * texSize) (fun i st =>
        let '(data, rng) := st in
        let '(v, rng) := rand rand_seq rng in
        let data :=
          <[Z.to_nat (i * 3 + 0) :=
              to_uchar (Z.max 0 (Z.min 255
                          (r + Z.rem v variation - Z.quot variation 2)))]>
            data in
        let '(v, rng) := rand rand_seq rng in
        let data :=
          <[Z.to_nat (i * 3 + 1) :=
              to_uchar (Z.max 0 (Z.min 255
                          (g + Z.rem v variation - Z.quot variation 2)))]>
            data in
        let '(v, rng) := rand rand_seq rng in
        let data :=
          <[Z.to_nat (i * 3 + 2) :=
              to_uchar (Z.max 0 (Z.min 255
                          (b + Z.rem v variation - Z.quot variation 2)))]>
            data in
        (data, rng)) (data, rng) in
    Some (tex, data, rng).

(** [loadTexture]: [soil] is what [SOIL_load_OGL_texture] returns for the
    file, 0 when it cannot be loaded.  The result is the texture name, the
    image the fallback uploaded if it ran, and the generator's state. *)
Definition loadTexture (rand_seq : Z -> nat -> Z) (soil : Z)
    (tex : Z) (garbage : list Z) (rng : Rng)
  : option (Z * option (list Z) * Rng) :=
  let textureID := soil in
  if Z.eqb textureID 0 then
    match createProceduralTexture rand_seq 180 160 140 20 tex garbage rng with
    | Some (t, data, rng) => Some (t, Some data, rng)
    | None => None
    end
  else Some (textureID, None, rng).

(** ** More readings of a trace *)

(** The depth of the modelview stack along a trace, started at depth [d]
    with room for [limit] entries: the depth at the end, or [None] when a
    [glPopMatrix] finds nothing to pop (GL_STACK_UNDERFLOW) or a
    [glPushMatrix] finds the stack full (GL_STACK_OVERFLOW). *)
Fixpoint stack_ok (limit d : nat) (t : list GLcmd) : option nat :=
  match t with
  | [] => Some d
  | glPushMatrix :: k =>
      if Nat.ltb d limit then stack_ok limit (S d) k else None
  | glPopMatrix :: k =>
      match d with
      | O => None
      | S d' => stack_ok limit d' k
      end
  | _ :: k => stack_ok limit d k
  end.

(** A piece of trace that, put in front of any other, changes neither the
    modelview map nor the saved maps the rest runs with, and that needs at
    most [k] free stack entries to do so without a stack error. *)
Definition transparent (k : nat) (t : list GLcmd) : Prop :=
  forall rest : list GLcmd,
    (forall cur stack, run cur stack (t ++ rest) = run cur stack rest)
    /\ (forall limit d, (d + k <= limit)%nat ->
                        stack_ok limit d (t ++ rest) = stack_ok limit d rest).

(** The offsets handed to [glTranslatef], in order. *)
Definition translations (t : list GLcmd) : list V3 :=
  omap (fun c => match c with glTranslatef x y z => Some (x, y, z) | _ => None end)
    t.

(** The commands of a trace selected by [sel], each with the modelview map
    in force when it is issued. *)
Fixpoint frames_of (sel : GLcmd -> bool) (cur : Frame) (stack : list Frame)
    (t : list GLcmd) : list (GLcmd * Frame) :=
  match t with
  | [] => []
  | c :: k =>
      (if sel c then [(c, cur)] else [])
        ++ frames_of sel (run cur stack [c]).1 (run cur stack [c]).2 k
  end.

Definition is_vertex (c : GLcmd) : bool :=
  match c with glVertex3f _ _ _ => true | _ => false end.

Definition is_sphere (c : GLcmd) : bool :=
  match c with glutSolidSphere _ _ _ => true | _ => false end.

(** Where the vertices of a trace land: each [glVertex3f] position mapped
    by the modelview map in force, starting from the identity. *)
Definition placed_vertices (t : list GLcmd) : list V3 :=
  omap (fun cf : GLcmd * Frame =>
          match cf.1 with
          | glVertex3f x y z => Some (cf.2 (x, y, z))
          | _ => None
          end)
    (frames_of is_vertex (fun p => p) [] t).

(** * Properties *)

(** ** Comparisons *)

Lemma fgeb_true (x y : R) : fgeb x y = true <-> x >= y.
Proof. unfold fgeb. destruct (Rge_dec x y); split; intros; congruence. Qed.

Lemma fgtb_true (x y : R) : fgtb x y = true <-> x > y.
Proof. unfold fgtb. destruct (Rgt_dec x y); split; intros; congruence. Qed.

Lemma fltb_true (x y : R) : fltb x y = true <-> x < y.
Proof. unfold fltb. destruct (Rlt_dec x y); split; intros; congruence. Qed.

Lemma fgeb_false (x y : R) : fgeb x y = false <-> x < y.
Proof.
  unfold fgeb. destruct (Rge_dec x y); split; intros; try congruence; lra.
Qed.

Lemma fgtb_false (x y : R) : fgtb x y = false <-> x <= y.
Proof.
  unfold fgtb. destruct (Rgt_dec x y); split; intros; try congruence; lra.
Qed.

Lemma fltb_false (x y : R) : fltb x y = false <-> x >= y.
Proof.
  unfold fltb. destruct (Rlt_dec x y); split; intros; try congruence; lra.
Qed.

(** ** Animation *)

Lemma update_enabled (g : Globals) :
  animationEnabled g = true ->
  timeAccumulator (update g) = timeAccumulator g + 0.016
  /\ bladeRotation (update g)
     = (if fgeb (bladeRotation g + windSpeed g * 2) 360
        then bladeRotation g + windSpeed g * 2 - 360
        else bladeRotation g + windSpeed g * 2)
  /\ nacelle_yaw (update g) = sin ((timeAccumulator g + 0.016) * 0.3) * 15
  /\ towerSway (update g)
     = sin ((timeAccumulator g + 0.016) * 0.8) * 0.5
       + cos ((timeAccumulator g + 0.016) * 0.6) * 0.3
  /\ windSpeed (update g) = windSpeed g
  /\ animationEnabled (update g) = true.
Proof. intros E. unfold update. rewrite E. repeat split; reflexivity. Qed.

Lemma update_disabled (g : Globals) :
  animationEnabled g = false ->
  timeAccumulator (update g) = timeAccumulator g
  /\ bladeRotation (update g) = bladeRotation g
  /\ nacelle_yaw (update g) = nacelle_yaw g
  /\ towerSway (update g) = towerSway g
  /\ windSpeed (update g) = windSpeed g
  /\ animationEnabled (update g) = false.
Proof.
  intros E. unfold update. rewrite E. repeat split; try reflexivity.
  exact E.
Qed.

Lemma blade_step_in_range (b w : R) :
  0 <= b < 360 -> 0.1 <= w <= 5 ->
  0 <= (if fgeb (b + w * 2) 360 then b + w * 2 - 360 else b + w * 2) < 360.
Proof.
  intros Hb Hw. destruct (fgeb (b + w * 2) 360) eqn:E.
  - apply fgeb_true in E. lra.
  - apply fgeb_false in E. lra.
Qed.

(** What a key leaves alone: only ['1'] and ['2'] write [windSpeed], only
    the space bar writes [animationEnabled], and no key writes the four
    animation values. *)
Lemma keyboardHandler_frame (key : ascii) (g g' : Globals) :
  keyboardHandler key g = Some g' ->
  bladeRotation g' = bladeRotation g
  /\ nacelle_yaw g' = nacelle_yaw g
  /\ towerSway g' = towerSway g
  /\ timeAccumulator g' = timeAccumulator g
  /\ (windSpeed g' = windSpeed g
      \/ windSpeed g' = Rmax 0.1 (windSpeed g - 0.2)
      \/ windSpeed g' = Rmin 5.0 (windSpeed g + 0.2)).
Proof.
  destruct key as [[] [] [] [] [] [] [] []]; simpl; intros H;
    inversion H; subst; simpl; auto 10.
Qed.

Lemma keyboardHandler_windSpeed (key : ascii) (g g' : Globals) :
  0.1 <= windSpeed g <= 5 ->
  keyboardHandler key g = Some g' ->
  0.1 <= windSpeed g' <= 5.
Proof.
  intros Hw H. apply keyboardHandler_frame in H.
  destruct H as (_ & _ & _ & _ & [-> | [-> | ->]]); [lra | |].
  - unfold Rmax. destruct (Rle_dec _ _); lra.
  - unfold Rmin. destruct (Rle_dec _ _); lra.
Qed.

Lemma specialKeys_frame (key : Z) (g : Globals) :
  bladeRotation (specialKeys key g) = bladeRotation g
  /\ nacelle_yaw (specialKeys key g) = nacelle_yaw g
  /\ towerSway (specialKeys key g) = towerSway g
  /\ timeAccumulator (specialKeys key g) = timeAccumulator g
  /\ windSpeed (specialKeys key g) = windSpeed g.
Proof. unfold specialKeys. simpl. auto. Qed.

Lemma reachable_ranges (g : Globals) :
  reachable g -> 0 <= bladeRotation g < 360 /\ 0.1 <= windSpeed g <= 5.
Proof.
  induction 1 as [| g Hg [IHb IHw] | key g g' Hg [IHb IHw] Hk
                 | key g Hg [IHb IHw]].
  - simpl. lra.
  - destruct (animationEnabled g) eqn:E.
    + destruct (update_enabled g E) as (_ & -> & _ & _ & -> & _).
      split; [apply blade_step_in_range|]; assumption.
    + destruct (update_disabled g E) as (_ & -> & _ & _ & -> & _). auto.
  - split; [|eapply keyboardHandler_windSpeed; eauto].
    apply keyboardHandler_frame in Hk. destruct Hk as (-> & _). assumption.
  - destruct (specialKeys_frame key g) as (-> & _ & _ & _ & ->). auto.
Qed.

(** C4.  One enabled [update] keeps [bladeRotation] in [0,360) when it was
    there and [windSpeed] is in [0.1,5]; from 359 degrees at wind speed 1
    the tick adds 2 and wraps to 1; every key handler keeps [windSpeed] in
    [0.1,5]; hence both ranges hold in every reachable state. *)
Theorem bladeRotation_stays_wrapped :
  (forall g : Globals,
      animationEnabled g = true ->
      0 <= bladeRotation g < 360 -> 0.1 <= windSpeed g <= 5 ->
      bladeRotation (update g)
      = (if fgeb (bladeRotation g + windSpeed g * 2) 360
         then bladeRotation g + windSpeed g * 2 - 360
         else bladeRotation g + windSpeed g * 2)
      /\ 0 <= bladeRotation (update g) < 360)
  /\ (forall g : Globals,
         animationEnabled g = true ->
         bladeRotation g = 359 -> windSpeed g = 1 ->
         bladeRotation g + windSpeed g * 2 = 361
         /\ bladeRotation (update g) = 1)
  /\ (forall (key : ascii) (g g' : Globals),
         0.1 <= windSpeed g <= 5 ->
         keyboardHandler key g = Some g' ->
         0.1 <= windSpeed g' <= 5)
  /\ (forall g : Globals,
         reachable g ->
         0 <= bladeRotation g < 360 /\ 0.1 <= windSpeed g <= 5).
Proof.
  repeat split.
  - apply update_enabled; assumption.
  - destruct (update_enabled g H) as (_ & -> & _).
    apply blade_step_in_range; assumption.
  - destruct (update_enabled g H) as (_ & -> & _).
    apply blade_step_in_range; assumption.
  - lra.
  - destruct (update_enabled g H) as (_ & -> & _). rewrite H0, H1.
    destruct (fgeb (359 + 1 * 2) 360) eqn:E; [lra|].
    apply fgeb_false in E. lra.
  - eapply keyboardHandler_windSpeed; eauto.
  - eapply keyboardHandler_windSpeed; eauto.
  - apply reachable_ranges; assumption.
  - apply reachable_ranges; assumption.
  - apply reachable_ranges; assumption.
  - apply reachable_ranges; assumption.
Qed.

(** The state of C4's example: 359 degrees, wind speed 1, animation on. *)
Lemma bladeRotation_stays_wrapped_witness :
  bladeRotation (update (mkGlobals 0 camera0 1 359 0 0 0 true true 0)) = 1.
Proof.
  apply (proj1 (proj2 bladeRotation_stays_wrapped)
           (mkGlobals 0 camera0 1 359 0 0 0 true true 0));
    reflexivity.
Defined.

Lemma iter_update_disabled (n : nat) (g : Globals) :
  animationEnabled g = false ->
  animationEnabled (Nat.iter n update g) = false
  /\ bladeRotation (Nat.iter n update g) = bladeRotation g
  /\ nacelle_yaw (Nat.iter n update g) = nacelle_yaw g
  /\ towerSway (Nat.iter n update g) = towerSway g
  /\ timeAccumulator (Nat.iter n update g) = timeAccumulator g.
Proof.
  intros E. induction n as [|n (IE & IB & IY & IS & IT)]; [auto|].
  change (Nat.iter (S n) update g) with (update (Nat.iter n update g)).
  destruct (update_disabled _ IE) as (-> & -> & -> & -> & _ & ->).
  auto.
Qed.

(** C5.  With [animationEnabled] false, any number of consecutive calls of
    [update] leaves [bladeRotation], [nacelle_yaw], [towerSway] and
    [timeAccumulator] at the values they had. *)
Theorem disabled_animation_is_frozen (n : nat) (g : Globals) :
  animationEnabled g = false ->
  bladeRotation (Nat.iter n update g) = bladeRotation g
  /\ nacelle_yaw (Nat.iter n update g) = nacelle_yaw g
  /\ towerSway (Nat.iter n update g) = towerSway g
  /\ timeAccumulator (Nat.iter n update g) = timeAccumulator g.
Proof. intros E. apply (iter_update_disabled n g E). Qed.

(** Three ticks after an enabled tick and a press of the space bar. *)
Lemma disabled_animation_is_frozen_witness :
  bladeRotation
    (Nat.iter 3 update (set_animationEnabled false (update globals0)))
  = bladeRotation (set_animationEnabled false (update globals0))
  /\ nacelle_yaw
       (Nat.iter 3 update (set_animationEnabled false (update globals0)))
     = nacelle_yaw (set_animationEnabled false (update globals0))
  /\ towerSway
       (Nat.iter 3 update (set_animationEnabled false (update globals0)))
     = towerSway (set_animationEnabled false (update globals0))
  /\ timeAccumulator
       (Nat.iter 3 update (set_animationEnabled false (update globals0)))
     = timeAccumulator (set_animationEnabled false (update globals0)).
Proof.
  apply (disabled_animation_is_frozen 3
           (set_animationEnabled false (update globals0))).
  reflexivity.
Defined.

Lemma yaw_formula_bounded (t : R) : Rabs (sin (t * 0.3) * 15) <= 15.
Proof.
  pose proof (SIN_bound (t * 0.3)) as [H1 H2]. apply Rabs_le. lra.
Qed.

Lemma sway_formula_bounded (t : R) :
  Rabs (sin (t * 0.8) * 0.5 + cos (t * 0.6) * 0.3) <= 0.8.
Proof.
  pose proof (SIN_bound (t * 0.8)) as [H1 H2].
  pose proof (COS_bound (t * 0.6)) as [H3 H4].
  apply Rabs_le. lra.
Qed.

Lemma reachable_bounded (g : Globals) :
  reachable g -> Rabs (nacelle_yaw g) <= 15 /\ Rabs (towerSway g) <= 0.8.
Proof.
  induction 1 as [| g Hg [IHy IHs] | key g g' Hg [IHy IHs] Hk
                 | key g Hg [IHy IHs]].
  - simpl. rewrite Rabs_R0. lra.
  - destruct (animationEnabled g) eqn:E.
    + destruct (update_enabled g E) as (_ & _ & -> & -> & _).
      split; [apply yaw_formula_bounded | apply sway_formula_bounded].
    + destruct (update_disabled g E) as (_ & _ & -> & -> & _). auto.
  - apply keyboardHandler_frame in Hk.
    destruct Hk as (_ & -> & -> & _). auto.
  - destruct (specialKeys_frame key g) as (_ & -> & -> & _). auto.
Qed.

(** C7.  After an enabled [update], with [t] the new accumulated time,
    [nacelle_yaw = 15 sin(0.3 t)] and
    [towerSway = 0.5 sin(0.8 t) + 0.3 cos(0.6 t)], so [|nacelle_yaw| <= 15]
    and [|towerSway| <= 0.8] whatever [t] is; the two bounds hold in every
    reachable state. *)
Theorem yaw_and_sway_bounded :
  (forall g : Globals,
      animationEnabled g = true ->
      nacelle_yaw (update g) = 15 * sin (0.3 * timeAccumulator (update g))
      /\ towerSway (update g)
         = 0.5 * sin (0.8 * timeAccumulator (update g))
           + 0.3 * cos (0.6 * timeAccumulator (update g))
      /\ Rabs (nacelle_yaw (update g)) <= 15
      /\ Rabs (towerSway (update g)) <= 0.8)
  /\ (forall g : Globals,
         reachable g ->
         Rabs (nacelle_yaw g) <= 15 /\ Rabs (towerSway g) <= 0.8).
Proof.
  split.
  - intros g E.
    destruct (update_enabled g E) as (-> & _ & -> & -> & _).
    split; [|split; [|split]].
    + rewrite (Rmult_comm 0.3). ring.
    + rewrite (Rmult_comm 0.8), (Rmult_comm 0.6). ring.
    + apply yaw_formula_bounded.
    + apply sway_formula_bounded.
  - apply reachable_bounded.
Qed.

(** The first tick of the program. *)
Lemma yaw_and_sway_bounded_witness :
  Rabs (nacelle_yaw (update globals0)) <= 15
  /\ Rabs (towerSway (update globals0)) <= 0.8.
Proof.
  apply (proj2 yaw_and_sway_bounded (update globals0)).
  apply reach_update, reach_init.
Defined.

(** ** Loops *)

Lemma for_upto_nonpos {S : Type} (n : Z) (body : Z -> S -> S) (s : S) :
  (n <= 0)%Z -> for_upto n body s = s.
Proof. intros Hn. unfold for_upto. rewrite seqZ_nil by lia. reflexivity. Qed.

Lemma for_upto_succ {S : Type} (n : Z) (body : Z -> S -> S) (s : S) :
  (0 <= n)%Z -> for_upto (n + 1) body s = body n (for_upto n body s).
Proof.
  intros Hn. unfold for_upto. rewrite seqZ_app by lia.
  rewrite fold_left_app. rewrite seqZ_cons by lia.
  rewrite seqZ_nil by lia. reflexivity.
Qed.

(** The loop rule: an invariant that holds before the first iteration and
    is carried by each one holds after the last. *)
Lemma for_upto_invariant {S : Type} (P : Z -> S -> Prop) (n : Z)
    (body : Z -> S -> S) (s : S) :
  (0 <= n)%Z ->
  P 0%Z s ->
  (forall k t, (0 <= k < n)%Z -> P k t -> P (k + 1)%Z (body k t)) ->
  P n (for_upto n body s).
Proof.
  intros Hn H0 Hstep.
  assert (forall m, (0 <= m)%Z -> (m <= n)%Z -> P m (for_upto m body s)) as G.
  { intros m Hm. pattern m. apply natlike_ind; [| |exact Hm].
    - intros _. rewrite for_upto_nonpos by lia. exact H0.
    - intros k Hk IH Hle. unfold Z.succ. rewrite for_upto_succ by lia.
      apply Hstep; [lia|]. apply IH. lia. }
  apply G; lia.
Qed.

(** ** Vectors of vectors *)

Section Grid.

Context {A : Type} `{!Inhabited A}.
Implicit Types (v : list (list A)) (i j : Z) (x : A).

Lemma length_set2 v i j x : length (set2 i j x v) = length v.
Proof. unfold set2. apply length_alter. Qed.

Lemma length_resize_row v (d : A) i n :
  length (resize_row d i n v) = length v.
Proof. unfold resize_row. apply length_alter. Qed.

Lemma at2_set2_eq v i j x :
  (Z.to_nat i < length v)%nat ->
  (Z.to_nat j < length (v !!! Z.to_nat i))%nat ->
  at2 (set2 i j x v) i j = x.
Proof.
  intros Hi Hj. unfold at2, set2.
  rewrite list_lookup_total_alter_eq by exact Hi.
  apply list_lookup_total_insert_eq. exact Hj.
Qed.

Lemma at2_set2_row_ne v i j x i' j' :
  Z.to_nat i <> Z.to_nat i' -> at2 (set2 i j x v) i' j' = at2 v i' j'.
Proof.
  intros Hi. unfold at2, set2.
  rewrite list_lookup_total_alter_ne by exact Hi. reflexivity.
Qed.

Lemma at2_set2_col_ne v i j x j' :
  Z.to_nat j <> Z.to_nat j' -> at2 (set2 i j x v) i j' = at2 v i j'.
Proof.
  intros Hj. unfold at2, set2. rewrite list_lookup_total_alter.
  case_decide; [|reflexivity].
  apply list_lookup_total_insert_ne. exact Hj.
Qed.

Lemma row_length_set2 v i j x i' :
  length (set2 i j x v !!! Z.to_nat i') = length (v !!! Z.to_nat i').
Proof.
  unfold set2. rewrite list_lookup_total_alter.
  case_decide as E; [|reflexivity].
  destruct E as [<- _]. apply length_insert.
Qed.

Lemma set2_set2 v i j x y : set2 i j x (set2 i j y v) = set2 i j x v.
Proof.
  unfold set2. generalize (Z.to_nat i) as k. induction v as [|row v IH].
  - intros k. reflexivity.
  - intros [|k]; simpl.
    + f_equal. apply list_insert_insert_eq.
    + f_equal. apply IH.
Qed.

Lemma at2_resize_row_ne v (d : A) i n i' j' :
  Z.to_nat i <> Z.to_nat i' ->
  at2 (resize_row d i n v) i' j' = at2 v i' j'.
Proof.
  intros Hi. unfold at2, resize_row.
  rewrite list_lookup_total_alter_ne by exact Hi. reflexivity.
Qed.

Lemma row_resize_row_ne v (d : A) i n i' :
  Z.to_nat i <> Z.to_nat i' ->
  resize_row d i n v !!! Z.to_nat i' = v !!! Z.to_nat i'.
Proof.
  intros Hi. unfold resize_row.
  apply list_lookup_total_alter_ne. exact Hi.
Qed.

Lemma row_length_resize_row v (d : A) i n :
  (Z.to_nat i < length v)%nat ->
  length (resize_row d i n v !!! Z.to_nat i) = Z.to_nat n.
Proof.
  intros Hi. unfold resize_row.
  rewrite list_lookup_total_alter_eq by exact Hi. apply length_resize.
Qed.

End Grid.

(** ** Filling a grid row by row

    Both terrain generators have the same shape: the outer loop resizes
    row [i] and the inner loop stores one value per cell while it threads
    the rest of the state along.  [gr] projects the grid out of the state,
    [Q k] describes the rest of the state once [k] cells are done. *)

Section GridFill.

Context {A : Type} `{!Inhabited A} {S : Type}.
Variables (n : Z) (d : A).
Variable gr : S -> list (list A).
Variable Q : Z -> S -> Prop.
Variable rowinit : Z -> S -> S.
Variable cell : Z -> Z -> S -> S.
Variable val : Z -> Z -> A.

Hypothesis n_nonneg : (0 <= n)%Z.
Hypothesis rowinit_gr :
  forall i s, gr (rowinit i s) = resize_row d i n (gr s).
Hypothesis rowinit_Q : forall i k s, Q k s -> Q k (rowinit i s).
Hypothesis cell_gr :
  forall i j s, (0 <= i < n)%Z -> (0 <= j < n)%Z -> Q (i * n + j)%Z s ->
                gr (cell i j s) = set2 i j (val i j) (gr s).
Hypothesis cell_Q :
  forall i j s, (0 <= i < n)%Z -> (0 <= j < n)%Z -> Q (i * n + j)%Z s ->
                Q (i * n + j + 1)%Z (cell i j s).

Lemma fill_row (i : Z) (s : S) :
  (0 <= i < n)%Z ->
  length (gr s) = Z.to_nat n ->
  Q (i * n)%Z s ->
  (forall i', (0 <= i' < i)%Z ->
              length (gr s !!! Z.to_nat i') = Z.to_nat n) ->
  (forall i' j', (0 <= i' < i)%Z -> (0 <= j' < n)%Z ->
                 at2 (gr s) i' j' = val i' j') ->
  length (gr (for_upto n (cell i) (rowinit i s))) = Z.to_nat n
  /\ Q ((i + 1) * n)%Z (for_upto n (cell i) (rowinit i s))
  /\ (forall i', (0 <= i' < i + 1)%Z ->
        length (gr (for_upto n (cell i) (rowinit i s)) !!! Z.to_nat i')
        = Z.to_nat n)
  /\ (forall i' j', (0 <= i' < i + 1)%Z -> (0 <= j' < n)%Z ->
        at2 (gr (for_upto n (cell i) (rowinit i s))) i' j' = val i' j').
Proof.
  intros Hi Hlen HQ Hrows Hbelow.
  pose (P := fun (j : Z) (t : S) =>
    length (gr t) = Z.to_nat n
    /\ (forall i', (0 <= i' < i + 1)%Z ->
          length (gr t !!! Z.to_nat i') = Z.to_nat n)
    /\ Q (i * n + j)%Z t
    /\ (forall i' j', (0 <= i' < i)%Z -> (0 <= j' < n)%Z ->
                      at2 (gr t) i' j' = val i' j')
    /\ (forall j', (0 <= j' < j)%Z -> at2 (gr t) i j' = val i j')).
  assert (P n (for_upto n (cell i) (rowinit i s)))
    as (H1 & H2 & H3 & H4 & H5).
  { apply for_upto_invariant; [exact n_nonneg | |].
    - unfold P. rewrite rowinit_gr.
      split; [rewrite length_resize_row; exact Hlen|].
      split.
      { intros i' Hi'. destruct (Z.eq_dec i' i) as [->|Hne].
        - apply row_length_resize_row. lia.
        - rewrite row_resize_row_ne by lia. apply Hrows. lia. }
      split; [replace (i * n + 0)%Z with (i * n)%Z by lia;
              apply rowinit_Q, HQ|].
      split; [|intros j' Hj'; lia].
      intros i' j' Hi' Hj'. rewrite at2_resize_row_ne by lia.
      apply Hbelow; assumption.
    - intros j t Hj (L1 & L2 & L3 & L4 & L5). unfold P.
      rewrite (cell_gr i j t Hi Hj L3).
      split; [rewrite length_set2; exact L1|].
      split; [intros i' Hi'; rewrite row_length_set2; apply L2, Hi'|].
      split; [rewrite Z.add_assoc; apply cell_Q; assumption|].
      split.
      + intros i' j' Hi' Hj'. rewrite at2_set2_row_ne by lia.
        apply L4; assumption.
      + intros j' Hj'. destruct (Z.eq_dec j' j) as [->|Hne].
        * apply at2_set2_eq; [lia|]. rewrite L2; lia.
        * rewrite at2_set2_col_ne by lia. apply L5. lia. }
  split; [exact H1|].
  split; [replace ((i + 1) * n)%Z with (i * n + n)%Z by lia; exact H3|].
  split; [exact H2|].
  intros i' j' Hi' Hj'.
  destruct (Z.eq_dec i' i) as [->|Hne]; [apply H5; lia | apply H4; lia].
Qed.

Lemma fill_grid (s : S) :
  length (gr s) = Z.to_nat n ->
  Q 0%Z s ->
  length (gr (for_upto n (fun i t => for_upto n (cell i) (rowinit i t)) s))
  = Z.to_nat n
  /\ Q (n * n)%Z
       (for_upto n (fun i t => for_upto n (cell i) (rowinit i t)) s)
  /\ (forall i, (0 <= i < n)%Z ->
        length (gr (for_upto n
                      (fun i t => for_upto n (cell i) (rowinit i t)) s)
                !!! Z.to_nat i) = Z.to_nat n)
  /\ (forall i j, (0 <= i < n)%Z -> (0 <= j < n)%Z ->
        at2 (gr (for_upto n
                   (fun i t => for_upto n (cell i) (rowinit i t)) s)) i j
        = val i j).
Proof.
  intros Hlen HQ.
  apply (for_upto_invariant
           (fun i t =>
              length (gr t) = Z.to_nat n
              /\ Q (i * n)%Z t
              /\ (forall i', (0 <= i' < i)%Z ->
                    length (gr t !!! Z.to_nat i') = Z.to_nat n)
              /\ (forall i' j', (0 <= i' < i)%Z -> (0 <= j' < n)%Z ->
                                at2 (gr t) i' j' = val i' j')));
    [exact n_nonneg | |].
  - split; [exact Hlen|]. split; [exact HQ|].
    split; [intros i' Hi'; lia | intros i' j' Hi'; lia].
  - intros i t Hi (L1 & L2 & L3 & L4). apply fill_row; assumption.
Qed.

End GridFill.

(** ** Heightfield *)

Lemma generateTerrain_filled (old : list (list R)) :
  length (generateTerrain old) = Z.to_nat (TERRAIN_SIZE + 1)
  /\ (forall i, (0 <= i < TERRAIN_SIZE + 1)%Z ->
        length (generateTerrain old !!! Z.to_nat i)
        = Z.to_nat (TERRAIN_SIZE + 1))
  /\ (forall i j,
        (0 <= i < TERRAIN_SIZE + 1)%Z -> (0 <= j < TERRAIN_SIZE + 1)%Z ->
        at2 (generateTerrain old) i j
        = sin (IZR i * 0.3) * cos (IZR j * 0.3) * HEIGHT_SCALE
          + sin (IZR i * 0.1) * sin (IZR j * 0.15) * HEIGHT_SCALE * 2
          + sin (IZR i * 0.05) * cos (IZR j * 0.08) * HEIGHT_SCALE * 0.5).
Proof.
  unfold generateTerrain.
  destruct (fill_grid (TERRAIN_SIZE + 1) 0
              (fun v : list (list R) => v) (fun _ _ => True)
              (fun i v => resize_row 0 i (TERRAIN_SIZE + 1) v)
              (fun i j v =>
                 set2 i j
                   (sin (IZR i * 0.3) * cos (IZR j * 0.3) * HEIGHT_SCALE
                    + sin (IZR i * 0.1) * sin (IZR j * 0.15)
                      * HEIGHT_SCALE * 2
                    + sin (IZR i * 0.05) * cos (IZR j * 0.08)
                      * HEIGHT_SCALE * 0.5) v)
              (fun i j =>
                 sin (IZR i * 0.3) * cos (IZR j * 0.3) * HEIGHT_SCALE
                 + sin (IZR i * 0.1) * sin (IZR j * 0.15) * HEIGHT_SCALE * 2
                 + sin (IZR i * 0.05) * cos (IZR j * 0.08)
                   * HEIGHT_SCALE * 0.5)
              ltac:(unfold TERRAIN_SIZE; lia)
              ltac:(reflexivity) ltac:(trivial) ltac:(reflexivity)
              ltac:(trivial)
              (resize (Z.to_nat (TERRAIN_SIZE + 1)) [] old)
              (length_resize _ _ _) I)
    as (H1 & _ & H2 & H3).
  split; [exact H1|]. split; [exact H2 | exact H3].
Qed.

(** Two grids with the same dimensions and the same cells are equal. *)
Lemma grid_ext {A : Type} `{!Inhabited A} (n : nat) (v w : list (list A)) :
  length v = n -> length w = n ->
  (forall i, (i < n)%nat -> length (v !!! i) = n) ->
  (forall i, (i < n)%nat -> length (w !!! i) = n) ->
  (forall i j, (i < n)%nat -> (j < n)%nat -> (v !!! i) !!! j = (w !!! i) !!! j) ->
  v = w.
Proof.
  intros Hv Hw Hrv Hrw Hcells.
  apply (list_eq_same_length _ _ n); [exact Hw | exact Hv |].
  intros i r1 r2 Hi E1 E2.
  pose proof (list_lookup_total_correct _ _ _ E1) as T1.
  pose proof (list_lookup_total_correct _ _ _ E2) as T2.
  apply (list_eq_same_length _ _ n).
  - rewrite <- T2. apply Hrw, Hi.
  - rewrite <- T1. apply Hrv, Hi.
  - intros j x y Hj F1 F2.
    pose proof (list_lookup_total_correct _ _ _ F1) as U1.
    pose proof (list_lookup_total_correct _ _ _ F2) as U2.
    rewrite <- U1, <- U2, <- T1, <- T2. apply Hcells; assumption.
Qed.

(** C6.  Every cell (i,j) of the generated heightfield, 0 <= i,j <= 50,
    holds the sum of the three sinusoidal terms with S = 3; the grid is 51
    by 51; and the result does not depend on what the vector held before
    (nor on any random stream, which the generator never receives), so two
    runs produce the same grid. *)
Theorem generateTerrain_formula (old old' : list (list R)) (i j : Z) :
  (0 <= i <= 50)%Z -> (0 <= j <= 50)%Z ->
  at2 (generateTerrain old) i j
  = sin (IZR i * 0.3) * cos (IZR j * 0.3) * 3
    + sin (IZR i * 0.1) * sin (IZR j * 0.15) * 2 * 3
    + sin (IZR i * 0.05) * cos (IZR j * 0.08) * 0.5 * 3
  /\ length (generateTerrain old) = 51%nat
  /\ length (generateTerrain old !!! Z.to_nat i) = 51%nat
  /\ generateTerrain old = generateTerrain old'.
Proof.
  intros Hi Hj.
  destruct (generateTerrain_filled old) as (L & Lr & C).
  destruct (generateTerrain_filled old') as (L' & Lr' & C').
  change (Z.to_nat (TERRAIN_SIZE + 1)) with 51%nat in *.
  change (TERRAIN_SIZE + 1)%Z with 51%Z in *.
  split; [|split; [exact L | split; [apply Lr; lia|]]].
  - rewrite C by lia. unfold HEIGHT_SCALE. ring.
  - apply (grid_ext 51); try assumption.
    + intros k Hk. rewrite <- (Nat2Z.id k). apply Lr. lia.
    + intros k Hk. rewrite <- (Nat2Z.id k). apply Lr'. lia.
    + intros k l Hk Hl.
      specialize (C (Z.of_nat k) (Z.of_nat l) ltac:(lia) ltac:(lia)).
      specialize (C' (Z.of_nat k) (Z.of_nat l) ltac:(lia) ltac:(lia)).
      unfold at2 in C, C'. rewrite !Nat2Z.id in C, C'.
      rewrite C, C'. reflexivity.
Qed.

(** Cell (1,2), once on an empty vector and once on a stale one. *)
Lemma generateTerrain_formula_witness :
  at2 (generateTerrain []) 1 2
  = sin (1 * 0.3) * cos (2 * 0.3) * 3
    + sin (1 * 0.1) * sin (2 * 0.15) * 2 * 3
    + sin (1 * 0.05) * cos (2 * 0.08) * 0.5 * 3
  /\ length (generateTerrain []) = 51%nat
  /\ length (generateTerrain [] !!! Z.to_nat 1) = 51%nat
  /\ generateTerrain [] = generateTerrain [[7; 7]; []].
Proof.
  apply (generateTerrain_formula [] [[7; 7]; []] 1 2); lia.
Defined.

(** ** Terrain classifier *)

Lemma label_code_of_code (c : Z) :
  (0 <= c < 4)%Z -> label_code (label_of_code c) = c.
Proof.
  intros Hc.
  assert (c = 0 \/ c = 1 \/ c = 2 \/ c = 3)%Z as [-> | [-> | [-> | ->]]]
    by lia; reflexivity.
Qed.

Lemma label_code_range (l : SurfaceLabel) : (0 <= label_code l < 4)%Z.
Proof. destruct l; simpl; lia. Qed.

Section TerrainTexturesFacts.

Variable rand_seq : Z -> nat -> Z.
Hypothesis rand_nonneg : forall seed k, (0 <= rand_seq seed k)%Z.

Lemma rf_at_range (k : nat) : 0 <= rf_at rand_seq k < 1.
Proof.
  unfold rf_at.
  destruct (Z.rem_bound_pos (rand_seq 42 k) 100 (rand_nonneg 42 k)
              ltac:(lia)) as [H0 H1].
  apply IZR_le in H0. apply IZR_lt in H1. lra.
Qed.

Lemma pick_range (k : nat) : (0 <= Z.rem (rand_seq 42 k) 4 < 4)%Z.
Proof. apply Z.rem_bound_pos; [apply rand_nonneg | lia]. Qed.

(** One cell: the stored label is the rule of the specification, the
    override label is the next number of the stream, and the generator
    advances by two calls on an override and by one otherwise. *)
Lemma classifyCell_step (terrainHeights : list (list R)) (i j : Z)
    (terrainTextures : list (list Z)) (k : nat) :
  classifyCell rand_seq terrainHeights i j (terrainTextures, mkRng 42 k)
  = (set2 i j
       (label_code
          (spec_label (at2 terrainHeights i j) (rf_at rand_seq k)
             (label_of_code (Z.rem (rand_seq 42 (S k)) 4))))
       terrainTextures,
     mkRng 42 (if fgtb (rf_at rand_seq k) 0.95 then k + 2 else k + 1)%nat).
Proof.
  unfold classifyCell, rand, spec_label, tier_label. cbn [rng_seed rng_calls].
  fold (rf_at rand_seq k).
  destruct (fgtb (rf_at rand_seq k) 0.95) eqn:E.
  - rewrite label_code_of_code by apply pick_range.
    replace (k + 2)%nat with (S (S k)) by lia.
    destruct (fltb (at2 terrainHeights i j) (-2));
      [|destruct (fltb (at2 terrainHeights i j) 2);
        [|destruct (fltb (at2 terrainHeights i j) 5)]];
      rewrite set2_set2; reflexivity.
  - replace (k + 1)%nat with (S k) by lia.
    destruct (fltb (at2 terrainHeights i j) (-2));
      [|destruct (fltb (at2 terrainHeights i j) 2);
        [|destruct (fltb (at2 terrainHeights i j) 5)]];
      repeat match goal with
             | |- context [fgtb ?a ?b] => destruct (fgtb a b)
             end; reflexivity.
Qed.

Lemma generateMultiTextureTerrain_filled (terrainHeights : list (list R))
    (st : list (list Z) * Rng) :
  snd (generateMultiTextureTerrain rand_seq terrainHeights st)
  = mkRng 42
      (calls_before rand_seq
         (Z.to_nat ((TERRAIN_SIZE + 1) * (TERRAIN_SIZE + 1))))
  /\ (forall i j,
        (0 <= i < TERRAIN_SIZE + 1)%Z -> (0 <= j < TERRAIN_SIZE + 1)%Z ->
        at2 (fst (generateMultiTextureTerrain rand_seq terrainHeights st))
          i j
        = label_code
            (spec_label (at2 terrainHeights i j)
               (rf_at rand_seq (calls_before rand_seq (cell_rank i j)))
               (label_of_code
                  (Z.rem
                     (rand_seq 42
                        (S (calls_before rand_seq (cell_rank i j))))
                     4)))).
Proof.
  destruct st as [terrainTextures rng]. unfold generateMultiTextureTerrain.
  destruct (fill_grid (TERRAIN_SIZE + 1) 0%Z
              (fun s : list (list Z) * Rng => fst s)
              (fun k s => snd s = mkRng 42 (calls_before rand_seq (Z.to_nat k)))
              (fun i s =>
                 (resize_row 0%Z i (TERRAIN_SIZE + 1) (fst s), snd s))
              (classifyCell rand_seq terrainHeights)
              (fun i j =>
                 label_code
                   (spec_label (at2 terrainHeights i j)
                      (rf_at rand_seq
                         (calls_before rand_seq (cell_rank i j)))
                      (label_of_code
                         (Z.rem
                            (rand_seq 42
                               (S (calls_before rand_seq (cell_rank i j))))
                            4))))
              ltac:(unfold TERRAIN_SIZE; lia)
              ltac:(reflexivity)
              ltac:(intros i k s H; exact H))
    with (s := (resize (Z.to_nat (TERRAIN_SIZE + 1)) [] terrainTextures,
                srand 42 rng))
    as (_ & H2 & _ & H4).
  - intros i j [v r] Hi Hj HQ. simpl in HQ. subst r.
    rewrite classifyCell_step. reflexivity.
  - intros i j [v r] Hi Hj HQ. simpl in HQ. subst r.
    rewrite classifyCell_step. cbn [snd]. f_equal.
    replace (Z.to_nat (i * (TERRAIN_SIZE + 1) + j + 1))
      with (S (Z.to_nat (i * (TERRAIN_SIZE + 1) + j)))
      by (unfold TERRAIN_SIZE in *; lia).
    reflexivity.
  - apply length_resize.
  - reflexivity.
  - split; [exact H2 | exact H4].
Qed.

End TerrainTexturesFacts.

Lemma calls_before_count (rand_seq : Z -> nat -> Z) (n : nat) :
  calls_before rand_seq n = (n + overrides_before rand_seq n)%nat.
Proof.
  induction n as [|n IH]; [reflexivity|].
  cbn [calls_before overrides_before].
  destruct (fgtb (rf_at rand_seq (calls_before rand_seq n)) 0.95); lia.
Qed.

(** C1.  For every grid cell (i,j), with [h] its elevation and [r] the
    draw made for it (a value of [0,1)), the stored code is the label of
    the rule: the tier of [h] and [r], replaced by a pick among the four
    labels exactly when that same [r] exceeds 0.95. *)
Theorem classifier_follows_rule (rand_seq : Z -> nat -> Z)
    (terrainHeights : list (list R)) (st : list (list Z) * Rng) (i j : Z) :
  (forall seed k, (0 <= rand_seq seed k)%Z) ->
  (0 <= i <= 50)%Z -> (0 <= j <= 50)%Z ->
  0 <= rf_at rand_seq (calls_before rand_seq (cell_rank i j)) < 1
  /\ at2 (fst (generateMultiTextureTerrain rand_seq terrainHeights st)) i j
     = label_code
         (spec_label (at2 terrainHeights i j)
            (rf_at rand_seq (calls_before rand_seq (cell_rank i j)))
            (label_of_code
               (Z.rem
                  (rand_seq 42%Z (S (calls_before rand_seq (cell_rank i j))))
                  4)))
  /\ (rf_at rand_seq (calls_before rand_seq (cell_rank i j)) > 0.95 ->
      at2 (fst (generateMultiTextureTerrain rand_seq terrainHeights st)) i j
      = Z.rem (rand_seq 42%Z (S (calls_before rand_seq (cell_rank i j)))) 4)
  /\ (rf_at rand_seq (calls_before rand_seq (cell_rank i j)) <= 0.95 ->
      at2 (fst (generateMultiTextureTerrain rand_seq terrainHeights st)) i j
      = label_code
          (tier_label (at2 terrainHeights i j)
             (rf_at rand_seq (calls_before rand_seq (cell_rank i j))))).
Proof.
  intros Hrand Hi Hj.
  destruct (generateMultiTextureTerrain_filled rand_seq Hrand
              terrainHeights st) as [_ H].
  specialize (H i j ltac:(unfold TERRAIN_SIZE; lia)
                ltac:(unfold TERRAIN_SIZE; lia)).
  split; [apply rf_at_range, Hrand|]. split; [exact H|]. split.
  - intros Hr. rewrite H. unfold spec_label.
    apply fgtb_true in Hr. rewrite Hr.
    apply label_code_of_code, pick_range, Hrand.
  - intros Hr. rewrite H. unfold spec_label.
    apply fgtb_false in Hr. rewrite Hr. reflexivity.
Qed.

(** Cell (0,1) of the generated heightfield, on a stream that starts
    0, 96, 192, ... *)
Lemma classifier_follows_rule_witness :
  0 <= rf_at (fun _ k => Z.of_nat (96 * k))
         (calls_before (fun _ k => Z.of_nat (96 * k)) (cell_rank 0 1)) < 1.
Proof.
  apply (classifier_follows_rule (fun _ k => Z.of_nat (96 * k))
           (generateTerrain []) ([], mkRng 0 0) 0 1); lia.
Defined.

(** C10.  When the override fires the replacement label is [rand() % 4]
    of the next number of the stream, not of the number that gave [r]: the
    cell makes two calls of [rand()], every other cell one.  So the first
    [n] cells make [n] calls plus one per override among them, and the
    draw a cell sees is the stream at its rank plus the number of earlier
    overrides. *)
Theorem override_draws_again (rand_seq : Z -> nat -> Z)
    (terrainHeights : list (list R)) (st : list (list Z) * Rng) :
  (forall seed k, (0 <= rand_seq seed k)%Z) ->
  (forall (i j : Z) (terrainTextures : list (list Z)) (k : nat),
      snd (classifyCell rand_seq terrainHeights i j
             (terrainTextures, mkRng 42 k))
      = mkRng 42 (if fgtb (rf_at rand_seq k) 0.95 then k + 2 else k + 1)%nat
      /\ (rf_at rand_seq k > 0.95 ->
          fst (classifyCell rand_seq terrainHeights i j
                 (terrainTextures, mkRng 42 k))
          = set2 i j (Z.rem (rand_seq 42%Z (S k)) 4) terrainTextures))
  /\ (forall n : nat,
         calls_before rand_seq n = (n + overrides_before rand_seq n)%nat)
  /\ (forall i j : Z,
         (0 <= i <= 50)%Z -> (0 <= j <= 50)%Z ->
         at2 (fst (generateMultiTextureTerrain rand_seq terrainHeights st))
           i j
         = label_code
             (spec_label (at2 terrainHeights i j)
                (rf_at rand_seq
                   (cell_rank i j + overrides_before rand_seq (cell_rank i j)))
                (label_of_code
                   (Z.rem
                      (rand_seq 42%Z
                         (S (cell_rank i j
                             + overrides_before rand_seq (cell_rank i j))))
                      4))))
  /\ snd (generateMultiTextureTerrain rand_seq terrainHeights st)
     = mkRng 42 (2601 + overrides_before rand_seq 2601).
Proof.
  intros Hrand. split; [|split; [|split]].
  - intros i j tex k. rewrite classifyCell_step by exact Hrand.
    split; [reflexivity|].
    intros Hr. cbn [fst]. unfold spec_label.
    apply fgtb_true in Hr. rewrite Hr.
    rewrite label_code_of_code by (apply pick_range, Hrand). reflexivity.
  - apply calls_before_count.
  - intros i j Hi Hj.
    destruct (generateMultiTextureTerrain_filled rand_seq Hrand
                terrainHeights st) as [_ H].
    rewrite H by (unfold TERRAIN_SIZE; lia).
    rewrite calls_before_count. reflexivity.
  - destruct (generateMultiTextureTerrain_filled rand_seq Hrand
                terrainHeights st) as [H _].
    rewrite H, calls_before_count. reflexivity.
Qed.

(** On the stream 0, 96, 192, ... the second cell draws 96 and overrides. *)
Lemma override_draws_again_witness :
  calls_before (fun _ k => Z.of_nat (96 * k)) 2
  = (2 + overrides_before (fun _ k => Z.of_nat (96 * k)) 2)%nat.
Proof.
  apply (override_draws_again (fun _ k => Z.of_nat (96 * k))
           (generateTerrain []) ([], mkRng 0 0)).
  intros seed k. lia.
Defined.

(** ** Traces *)

Lemma trace_bind {A B : Type} (m : GL A) (k : A -> GL B) :
  trace (bind m k) = trace m ++ trace (k (fst m)).
Proof. reflexivity. Qed.

Lemma trace_for_gl (n : Z) (body : Z -> GL unit) :
  trace (for_gl n body) = concat (map (fun i => trace (body i)) (seqZ 0 n)).
Proof.
  unfold for_gl, for_upto.
  assert (forall (l : list Z) (m : GL unit),
             trace (fold_left (fun done i => done ;; body i) l m)
             = trace m ++ concat (map (fun i => trace (body i)) l)) as G.
  { induction l as [|i l IH]; intros m; simpl.
    - rewrite app_nil_r. reflexivity.
    - rewrite IH, trace_bind, <- app_assoc. reflexivity. }
  rewrite G. reflexivity.
Qed.

Lemma trace_for_gl_nonpos (n : Z) (body : Z -> GL unit) :
  (n <= 0)%Z -> trace (for_gl n body) = [].
Proof. intros Hn. rewrite trace_for_gl, seqZ_nil by exact Hn. reflexivity. Qed.

Lemma trace_for_gl_empty_body (n : Z) (body : Z -> GL unit) :
  (forall i, trace (body i) = []) -> trace (for_gl n body) = [].
Proof.
  intros Hb. rewrite trace_for_gl.
  induction (seqZ 0 n) as [|i l IH]; simpl; [reflexivity|].
  rewrite Hb, IH. reflexivity.
Qed.

Lemma positions_app (t1 t2 : list GLcmd) :
  positions (t1 ++ t2) = positions t1 ++ positions t2.
Proof. unfold positions. apply omap_app. Qed.

Lemma divisions_app (t1 t2 : list GLcmd) :
  divisions (t1 ++ t2) = divisions t1 ++ divisions t2.
Proof. unfold divisions. apply omap_app. Qed.

Lemma positions_applyTexture (textureID : Z) :
  positions (trace (applyTexture textureID)) = [].
Proof. unfold applyTexture. destruct (Z.eqb textureID 0); reflexivity. Qed.

Lemma divisions_applyTexture (textureID : Z) :
  divisions (trace (applyTexture textureID)) = [].
Proof. unfold applyTexture. destruct (Z.eqb textureID 0); reflexivity. Qed.

(** ** Degenerate segment counts *)

Lemma drawEllipsoid_nonpos (a b c : R) (segments : Z) :
  (segments <= 0)%Z -> trace (drawEllipsoid a b c segments) = [].
Proof. intros Hn. unfold drawEllipsoid. apply trace_for_gl_nonpos, Hn. Qed.

Lemma drawTorus_nonpos (majorRadius minorRadius : R)
    (majorSegments minorSegments : Z) :
  (majorSegments <= 0)%Z \/ (minorSegments <= 0)%Z ->
  trace (drawTorus majorRadius minorRadius majorSegments minorSegments) = [].
Proof.
  intros [Hn | Hn]; unfold drawTorus.
  - apply trace_for_gl_nonpos, Hn.
  - apply trace_for_gl_empty_body. intros i. apply trace_for_gl_nonpos, Hn.
Qed.

Lemma drawBlade_nonpos (tp : TurbineGeometry) (tex : Textures) (off : R) :
  (bladeSegments tp <= 0)%Z ->
  positions (trace (drawBlade tp tex off)) = []
  /\ divisions (trace (drawBlade tp tex off))
     = [(bladeLength tp, IZR (bladeSegments tp))].
Proof.
  intros Hn. unfold drawBlade.
  rewrite !trace_bind, !positions_app, !divisions_app.
  rewrite trace_for_gl_nonpos by exact Hn.
  rewrite positions_applyTexture, divisions_applyTexture.
  split; reflexivity.
Qed.

(** C3 (as the code has it).  With a segment count that is zero or
    negative, [drawEllipsoid] and [drawTorus] issue nothing at all: no
    vertex and no division.  [drawBlade] emits no vertex either, but it
    computes [bladeLength / segments] once, before its loop. *)
Theorem degenerate_segments_emit_no_vertex (a b c majorRadius minorRadius
    angleOffset : R) (segments majorSegments minorSegments : Z)
    (tp : TurbineGeometry) (tex : Textures) :
  ((segments <= 0)%Z -> trace (drawEllipsoid a b c segments) = [])
  /\ ((majorSegments <= 0)%Z \/ (minorSegments <= 0)%Z ->
      trace (drawTorus majorRadius minorRadius majorSegments minorSegments)
      = [])
  /\ ((bladeSegments tp <= 0)%Z ->
      positions (trace (drawBlade tp tex angleOffset)) = []
      /\ divisions (trace (drawBlade tp tex angleOffset))
         = [(bladeLength tp, IZR (bladeSegments tp))]).
Proof.
  split; [apply drawEllipsoid_nonpos|].
  split; [apply drawTorus_nonpos | apply drawBlade_nonpos].
Qed.

(** A blade of minus three segments: no vertex, one division, by -3. *)
Lemma degenerate_segments_emit_no_vertex_witness :
  positions
    (trace (drawBlade (mkTurbineGeometry 3.5 1.8 80 24 12 4 4.5 45 2.2 (-3) 8 2)
              (mkTextures 1 2 3 4) 0)) = []
  /\ divisions
       (trace (drawBlade
                 (mkTurbineGeometry 3.5 1.8 80 24 12 4 4.5 45 2.2 (-3) 8 2)
                 (mkTextures 1 2 3 4) 0))
     = [(45, -3)].
Proof.
  apply (degenerate_segments_emit_no_vertex 1 1 1 1 1 0 0 0 0
           (mkTurbineGeometry 3.5 1.8 80 24 12 4 4.5 45 2.2 (-3) 8 2)
           (mkTextures 1 2 3 4)).
  simpl. lia.
Defined.

(** C3 as stated fails: with [bladeSegments = 0] the divisions of
    [drawBlade] are not all by a non-zero divisor, since it computes
    45 / 0. *)
Lemma drawBlade_zero_segments_divides_by_zero :
  ~ Forall (fun q : R * R => snd q <> 0)
      (divisions
         (trace (drawBlade
                   (mkTurbineGeometry 3.5 1.8 80 24 12 4 4.5 45 2.2 0 8 2)
                   (mkTextures 1 2 3 4) 0))).
Proof.
  destruct (drawBlade_nonpos
              (mkTurbineGeometry 3.5 1.8 80 24 12 4 4.5 45 2.2 0 8 2)
              (mkTextures 1 2 3 4) 0 ltac:(simpl; lia)) as [_ ->].
  intros H. apply Forall_inv in H. simpl in H. apply H. reflexivity.
Qed.

(** ** Vertices of a trace *)

Lemma vertices_from_app (n : V3) (tc : R * R) (t1 t2 : list GLcmd) :
  exists n' tc',
    vertices_from n tc (t1 ++ t2)
    = vertices_from n tc t1 ++ vertices_from n' tc' t2.
Proof.
  revert n tc. induction t1 as [|c t1 IH]; intros n tc.
  - exists n, tc. reflexivity.
  - destruct c; simpl; try apply IH.
    destruct (IH n tc) as (n' & tc' & E). exists n', tc'.
    rewrite E. reflexivity.
Qed.

Lemma vertices_from_positions (n : V3) (tc : R * R) (t : list GLcmd) :
  map v_position (vertices_from n tc t) = positions t.
Proof.
  revert n tc. induction t as [|c t IH]; intros n tc; [reflexivity|].
  destruct c; simpl; try apply IH.
  unfold positions. simpl. f_equal. apply IH.
Qed.

Lemma Forall_vertices_concat (P : Vertex -> Prop)
    (chunks : list (list GLcmd)) :
  Forall (fun q => forall n tc, Forall P (vertices_from n tc q)) chunks ->
  forall n tc, Forall P (vertices_from n tc (concat chunks)).
Proof.
  induction 1 as [|q chunks Hq _ IH]; intros n tc; simpl; [constructor|].
  destruct (vertices_from_app n tc q (concat chunks)) as (n' & tc' & ->).
  apply Forall_app. split; [apply Hq | apply IH].
Qed.

Lemma Forall_vertices_for_gl (P : Vertex -> Prop) (k : Z)
    (body : Z -> GL unit) :
  (forall i, (0 <= i < k)%Z ->
             forall n tc, Forall P (vertices_from n tc (trace (body i)))) ->
  forall n tc, Forall P (vertices_from n tc (trace (for_gl k body))).
Proof.
  intros Hb n tc. rewrite trace_for_gl. apply Forall_vertices_concat.
  apply Forall_fmap. apply Forall_forall. intros i Hi.
  apply elem_of_seqZ in Hi. intros n' tc'. apply Hb. lia.
Qed.

Lemma Forall_positions_for_gl (P : V3 -> Prop) (k : Z) (body : Z -> GL unit) :
  (forall i, (0 <= i < k)%Z -> Forall P (positions (trace (body i)))) ->
  Forall P (positions (trace (for_gl k body))).
Proof.
  intros Hb. rewrite trace_for_gl.
  assert (Forall (fun i => (0 <= i < k)%Z) (seqZ 0 k)) as Hl.
  { apply Forall_forall. intros i Hi. apply elem_of_seqZ in Hi. lia. }
  induction Hl as [|i l Hi _ IH]; simpl; [constructor|].
  rewrite positions_app. apply Forall_app. split; [apply Hb, Hi | exact IH].
Qed.

Lemma length_positions_for_gl (k : Z) (body : Z -> GL unit) (m : nat) :
  (forall i, length (positions (trace (body i))) = m) ->
  length (positions (trace (for_gl k body))) = (Z.to_nat k * m)%nat.
Proof.
  intros Hb. rewrite trace_for_gl. rewrite <- (length_seqZ 0 k).
  induction (seqZ 0 k) as [|i l IH]; simpl; [reflexivity|].
  rewrite positions_app, length_app, Hb, IH. reflexivity.
Qed.

(** ** Sphere and torus *)

Lemma sphere_point_norm (r u w : R) :
  0 <= r -> norm (r * cos u * cos w, r * sin u, r * cos u * sin w) = r.
Proof.
  intros Hr. unfold norm.
  replace (r * cos u * cos w * (r * cos u * cos w)
           + r * sin u * (r * sin u)
           + r * cos u * sin w * (r * cos u * sin w))
    with (r * r * ((sin u)² + (cos u)² * ((sin w)² + (cos w)²)))
    by (unfold Rsqr; ring).
  rewrite (sin2_cos2 w), Rmult_1_r, sin2_cos2, Rmult_1_r.
  apply sqrt_square, Hr.
Qed.

Lemma torus_point_ring_distance (R0 r u v : R) :
  0 <= r <= R0 ->
  ring_distance R0
    ((R0 + r * cos v) * cos u, (R0 + r * cos v) * sin u, r * sin v) = r.
Proof.
  intros [Hr HR]. unfold ring_distance.
  pose proof (COS_bound v) as [Hc1 Hc2].
  assert (0 <= R0 + r * cos v) as Hpos by nra.
  replace ((R0 + r * cos v) * cos u * ((R0 + r * cos v) * cos u)
           + (R0 + r * cos v) * sin u * ((R0 + r * cos v) * sin u))
    with ((R0 + r * cos v) * (R0 + r * cos v) * ((sin u)² + (cos u)²))
    by (unfold Rsqr; ring).
  rewrite sin2_cos2, Rmult_1_r, (sqrt_square _ Hpos).
  replace ((R0 + r * cos v - R0) * (R0 + r * cos v - R0)
           + r * sin v * (r * sin v))
    with (r * r * ((sin v)² + (cos v)²)) by (unfold Rsqr; ring).
  rewrite sin2_cos2, Rmult_1_r. apply sqrt_square, Hr.
Qed.

(** C8.  With equal semi-axes a = b = c = r > 0 and a positive segment
    count, the ellipsoid generator emits 4 * segments * segments vertices;
    each is (r cos u cos v, r sin u, r cos u sin v) for some angles, lies
    at Euclidean distance r from the origin, and carries as normal its
    position scaled by 1/r in each component. *)
Theorem ellipsoid_equal_axes_is_sphere (r : R) (segments : Z) :
  0 < r -> (0 < segments)%Z ->
  length (vertices (trace (drawEllipsoid r r r segments)))
  = Z.to_nat (4 * segments * segments)
  /\ Forall
       (fun v =>
          norm (v_position v) = r
          /\ (exists u w,
                 v_position v
                 = (r * cos u * cos w, r * sin u, r * cos u * sin w))
          /\ v_normal v = scale (1 / r) (1 / r) (1 / r) (v_position v))
       (vertices (trace (drawEllipsoid r r r segments))).
Proof.
  intros Hr Hn. split.
  - unfold vertices. rewrite <- (length_fmap v_position).
    rewrite vertices_from_positions. unfold drawEllipsoid.
    rewrite (length_positions_for_gl _ _ (Z.to_nat segments * 4)); [lia|].
    intros i. apply length_positions_for_gl. intros j. reflexivity.
  - unfold vertices, drawEllipsoid.
    apply Forall_vertices_for_gl. intros i Hi n0 tc0.
    apply Forall_vertices_for_gl. intros j Hj n1 tc1.
    cbn [trace bind quot emit snd fst app vertices_from].
    repeat match goal with
           | |- Forall _ (_ :: _) => constructor
           | |- Forall _ [] => constructor
           end;
      cbn [v_position v_normal scale];
      (split; [apply sphere_point_norm; lra|]);
      (split; [eexists _, _; reflexivity|]);
      (f_equal; [f_equal|]); unfold Rdiv; ring.
Qed.

(** A sphere of radius 2.5 cut in four segments. *)
Lemma ellipsoid_equal_axes_is_sphere_witness :
  length (vertices (trace (drawEllipsoid 2.5 2.5 2.5 4)))
  = Z.to_nat (4 * 4 * 4)
  /\ Forall
       (fun v =>
          norm (v_position v) = 2.5
          /\ (exists u w,
                 v_position v
                 = (2.5 * cos u * cos w, 2.5 * sin u, 2.5 * cos u * sin w))
          /\ v_normal v
             = scale (1 / 2.5) (1 / 2.5) (1 / 2.5) (v_position v))
       (vertices (trace (drawEllipsoid 2.5 2.5 2.5 4))).
Proof. apply (ellipsoid_equal_axes_is_sphere 2.5 4); [lra | lia]. Defined.

(** C9.  With majorRadius = 10, minorRadius = 2 and positive segment
    counts, the torus generator emits 4 * majorSegments * minorSegments
    vertices, each at distance 2 from the circle of radius 10 centred at
    the origin in the plane z = 0 (the torus's equatorial plane). *)
Theorem torus_vertices_on_tube (majorSegments minorSegments : Z) :
  (0 < majorSegments)%Z -> (0 < minorSegments)%Z ->
  length (positions (trace (drawTorus 10 2 majorSegments minorSegments)))
  = Z.to_nat (4 * majorSegments * minorSegments)
  /\ Forall (fun p => ring_distance 10 p = 2)
       (positions (trace (drawTorus 10 2 majorSegments minorSegments))).
Proof.
  intros Hmaj Hmin. split.
  - unfold drawTorus.
    rewrite (length_positions_for_gl _ _ (Z.to_nat minorSegments * 4));
      [lia|].
    intros i. apply length_positions_for_gl. intros j. reflexivity.
  - unfold drawTorus.
    apply Forall_positions_for_gl. intros i Hi.
    apply Forall_positions_for_gl. intros j Hj.
    cbn [trace bind quot emit snd fst app].
    unfold positions. cbn [omap list_omap].
    repeat match goal with
           | |- Forall _ (_ :: _) => constructor
           | |- Forall _ [] => constructor
           end;
      apply torus_point_ring_distance; lra.
Qed.

(** A torus of three by two segments. *)
Lemma torus_vertices_on_tube_witness :
  length (positions (trace (drawTorus 10 2 3 2))) = Z.to_nat (4 * 3 * 2)
  /\ Forall (fun p => ring_distance 10 p = 2)
       (positions (trace (drawTorus 10 2 3 2))).
Proof. apply (torus_vertices_on_tube 3 2); lia. Defined.

(** ** Placement of the foundation and the tower *)

Lemma v3_eq (a b c a' b' c' : R) :
  a = a' -> b = b' -> c = c' -> (a, b, c) = (a', b', c').
Proof. intros -> -> ->. reflexivity. Qed.

Lemma rotate_minus90_x (x y z : R) :
  rotate (-90) 1 0 0 (x, y, z) = (x, z, - y).
Proof.
  unfold rotate.
  replace (1 * 1 + 0 * 0 + 0 * 0) with 1 by ring. rewrite sqrt_1.
  replace (-90 * PI / 180) with (- (PI / 2)) by field.
  rewrite cos_neg, sin_neg, cos_PI2, sin_PI2.
  f_equal; [f_equal|]; field.
Qed.

Lemma run_app (cur : Frame) (stack : list Frame) (t1 t2 : list GLcmd) :
  run cur stack (t1 ++ t2)
  = run (run cur stack t1).1 (run cur stack t1).2 t2.
Proof.
  revert cur stack. induction t1 as [|c t1 IH]; intros cur stack.
  - reflexivity.
  - destruct c; simpl; try apply IH. destruct stack; apply IH.
Qed.

Lemma quadrics_from_app (cur : Frame) (stack : list Frame)
    (t1 t2 : list GLcmd) :
  quadrics_from cur stack (t1 ++ t2)
  = quadrics_from cur stack t1
    ++ quadrics_from (run cur stack t1).1 (run cur stack t1).2 t2.
Proof.
  revert cur stack. induction t1 as [|c t1 IH]; intros cur stack.
  - reflexivity.
  - cbn [app quadrics_from]. rewrite IH, <- app_assoc.
    change (c :: t1) with ([c] ++ t1). rewrite (run_app cur stack [c] t1).
    reflexivity.
Qed.

Lemma run_inert (cur : Frame) (stack : list Frame) (t : list GLcmd) :
  Forall (fun c => is_inert c = true) t -> run cur stack t = (cur, stack).
Proof.
  induction 1 as [|c t Hc _ IH]; [reflexivity|].
  destruct c; simpl in Hc; try discriminate; exact IH.
Qed.

Lemma quadrics_from_inert (cur : Frame) (stack : list Frame)
    (t : list GLcmd) :
  Forall (fun c => is_inert c = true) t -> quadrics_from cur stack t = [].
Proof.
  induction 1 as [|c t Hc _ IH]; [reflexivity|].
  destruct c; simpl in Hc; try discriminate; exact IH.
Qed.

Lemma quadrics_from_none (cur : Frame) (stack : list Frame)
    (t : list GLcmd) :
  Forall (fun c => is_quadric c = false) t -> quadrics_from cur stack t = [].
Proof.
  intros H. revert cur stack.
  induction H as [|c t Hc _ IH]; intros cur stack; [reflexivity|].
  cbn [quadrics_from]. rewrite Hc. apply IH.
Qed.

Lemma Forall_trace_for_gl (P : GLcmd -> Prop) (k : Z) (body : Z -> GL unit) :
  (forall i, Forall P (trace (body i))) -> Forall P (trace (for_gl k body)).
Proof.
  intros Hb. rewrite trace_for_gl.
  induction (seqZ 0 k) as [|i l IH]; simpl; [constructor|].
  apply Forall_app. split; [apply Hb | exact IH].
Qed.

Lemma Forall_trace_bind {A B : Type} (P : GLcmd -> Prop) (m : GL A)
    (k : A -> GL B) :
  Forall P (trace m) -> (forall a, Forall P (trace (k a))) ->
  Forall P (trace (bind m k)).
Proof. intros Hm Hk. rewrite trace_bind. apply Forall_app. auto. Qed.

Ltac forall_trace :=
  repeat first
    [ apply Forall_trace_for_gl; intros ?
    | apply Forall_trace_bind; [|intros ?]
    | match goal with
      | |- Forall _ (trace (applyTexture ?i)) =>
          unfold applyTexture; destruct (Z.eqb i 0)
      | |- Forall _ (trace (emit _)) => repeat constructor
      | |- Forall _ (trace (quot _ _)) => repeat constructor
      end ].

Lemma drawTorus_inert (majorRadius minorRadius : R)
    (majorSegments minorSegments : Z) :
  Forall (fun c => is_inert c = true)
    (trace (drawTorus majorRadius minorRadius majorSegments minorSegments)).
Proof. unfold drawTorus. forall_trace. Qed.

Lemma drawEllipsoid_no_quadric (a b c : R) (segments : Z) :
  Forall (fun c => is_quadric c = false) (trace (drawEllipsoid a b c segments)).
Proof. unfold drawEllipsoid. forall_trace. Qed.

Lemma drawBlade_no_quadric (tp : TurbineGeometry) (tex : Textures) (o : R) :
  Forall (fun c => is_quadric c = false) (trace (drawBlade tp tex o)).
Proof. unfold drawBlade. forall_trace. Qed.

Lemma drawNacelle_no_quadric (tp : TurbineGeometry) (tex : Textures) :
  Forall (fun c => is_quadric c = false) (trace (drawNacelle tp tex)).
Proof.
  unfold drawNacelle. forall_trace.
Qed.

Lemma drawRotorSystem_no_quadric (tp : TurbineGeometry) (tex : Textures)
    (g : Globals) :
  Forall (fun c => is_quadric c = false) (trace (drawRotorSystem tp tex g)).
Proof.
  unfold drawRotorSystem, drawHub. forall_trace.
Qed.

Lemma trace_emit (c : GLcmd) : trace (emit c) = [c].
Proof. reflexivity. Qed.

Lemma applyTexture_inert (textureID : Z) :
  Forall (fun c => is_inert c = true) (trace (applyTexture textureID)).
Proof. forall_trace. Qed.


Lemma upright_frame (ty : R) (p : V3) :
  translate 0 ty 0 (rotate (-90) 1 0 0 p) = (p.1.1, p.2 + ty, - p.1.2).
Proof.
  destruct p as [[x y] z]. rewrite rotate_minus90_x.
  cbn [translate fst snd]. apply v3_eq; lra.
Qed.

Lemma upright_frame_lifted (ty tz : R) (p : V3) :
  translate 0 ty 0 (rotate (-90) 1 0 0 (translate 0 0 tz p))
  = (p.1.1, p.2 + tz + ty, - p.1.2).
Proof.
  destruct p as [[x y] z]. cbn [translate]. rewrite rotate_minus90_x.
  cbn [translate fst snd]. apply v3_eq; lra.
Qed.

Lemma turbine_quadrics (tp : TurbineGeometry) (tex : Textures)
    (g : Globals) :
  quadrics (trace (drawWindTurbine tp tex g))
  = [ (gluCylinder (foundationRadius tp) (foundationRadius tp)
         (foundationHeight tp) 32 1,
       fun p => translate 0 (- foundationHeight tp * 0.5) 0
                  (rotate (-90) 1 0 0 p));
      (gluDisk 0 (foundationRadius tp) 32 1,
       fun p => translate 0 (- foundationHeight tp * 0.5) 0
                  (rotate (-90) 1 0 0 p));
      (gluDisk 0 (foundationRadius tp) 32 1,
       fun p => translate 0 (- foundationHeight tp * 0.5) 0
                  (rotate (-90) 1 0 0
                     (translate 0 0 (foundationHeight tp) p)));
      (gluCylinder (baseRadius tp) (topRadius tp) (height tp) (segments tp) 1,
       fun p => translate 0 (foundationHeight tp) 0 (rotate (-90) 1 0 0 p));
      (gluDisk 0 (baseRadius tp) (segments tp) 1,
       fun p => translate 0 (foundationHeight tp) 0 (rotate (-90) 1 0 0 p));
      (gluDisk 0 (topRadius tp) (segments tp) 1,
       fun p => translate 0 (foundationHeight tp) 0
                  (rotate (-90) 1 0 0 (translate 0 0 (height tp) p))) ].
Proof.
  unfold quadrics, drawWindTurbine, drawFoundation, drawTurbineTower,
    drawSolidCylinder.
  repeat (rewrite trace_bind; cbn beta).
  rewrite !trace_emit, <- !app_assoc.
  generalize (applyTexture_inert (concreteTexture tex))
    (applyTexture_inert (metalTexture tex))
    (drawTorus_inert (foundationRadius tp * 1.1) 0.5 24 16)
    (drawNacelle_no_quadric tp tex) (drawRotorSystem_no_quadric tp tex g).
  generalize (trace (applyTexture (concreteTexture tex)))
    (trace (applyTexture (metalTexture tex)))
    (trace (drawTorus (foundationRadius tp * 1.1) 0.5 24 16))
    (trace (drawNacelle tp tex)) (trace (drawRotorSystem tp tex g)).
  intros tc tm tt tn tr Hc Hm Ht Hn Hr.
  cbn [app quadrics_from is_quadric run fst snd].
  rewrite quadrics_from_app, (quadrics_from_inert _ _ _ Hc),
    (run_inert _ _ _ Hc).
  cbn [app quadrics_from is_quadric run fst snd].
  rewrite quadrics_from_app, (quadrics_from_inert _ _ _ Ht),
    (run_inert _ _ _ Ht).
  cbn [app quadrics_from is_quadric run fst snd].
  rewrite quadrics_from_app, (quadrics_from_inert _ _ _ Hm),
    (run_inert _ _ _ Hm).
  cbn [app quadrics_from is_quadric run fst snd].
  rewrite quadrics_from_none; [reflexivity|].
  apply Forall_app. split; [exact Hn|].
  constructor; [reflexivity|].
  apply Forall_app. split; [exact Hr|].
  repeat constructor.
Qed.

(** Whatever the dimensions: the foundation cylinder spans the heights
    -foundationHeight/2 to +foundationHeight/2, with its caps at the two
    ends; the tower's axis is the vertical through the origin, with its
    caps at foundationHeight and foundationHeight + height. *)
Lemma foundation_and_tower_frames (tp : TurbineGeometry)
    (tex : Textures) (g : Globals) :
  exists fnd fnd_bottom fnd_top twr twr_bottom twr_top : Frame,
    quadrics (trace (drawWindTurbine tp tex g))
    = [ (gluCylinder (foundationRadius tp) (foundationRadius tp)
           (foundationHeight tp) 32 1, fnd);
        (gluDisk 0 (foundationRadius tp) 32 1, fnd_bottom);
        (gluDisk 0 (foundationRadius tp) 32 1, fnd_top);
        (gluCylinder (baseRadius tp) (topRadius tp) (height tp)
           (segments tp) 1, twr);
        (gluDisk 0 (baseRadius tp) (segments tp) 1, twr_bottom);
        (gluDisk 0 (topRadius tp) (segments tp) 1, twr_top) ]
    /\ (forall p,
          on_quadric (gluCylinder (foundationRadius tp) (foundationRadius tp)
                        (foundationHeight tp) 32 1) p ->
          - foundationHeight tp / 2 <= height_of (fnd p)
          <= foundationHeight tp / 2)
    /\ (forall p, on_quadric (gluDisk 0 (foundationRadius tp) 32 1) p ->
                  height_of (fnd_bottom p) = - foundationHeight tp / 2)
    /\ (forall p, on_quadric (gluDisk 0 (foundationRadius tp) 32 1) p ->
                  height_of (fnd_top p) = foundationHeight tp / 2)
    /\ (forall z, twr (0, 0, z) = (0, foundationHeight tp + z, 0))
    /\ (forall p,
          on_quadric (gluCylinder (baseRadius tp) (topRadius tp) (height tp)
                        (segments tp) 1) p ->
          foundationHeight tp <= height_of (twr p)
          <= foundationHeight tp + height tp)
    /\ (forall p, on_quadric (gluDisk 0 (baseRadius tp) (segments tp) 1) p ->
                  height_of (twr_bottom p) = foundationHeight tp)
    /\ (forall p, on_quadric (gluDisk 0 (topRadius tp) (segments tp) 1) p ->
                  height_of (twr_top p) = foundationHeight tp + height tp).
Proof.
  do 6 eexists. split; [apply turbine_quadrics|].
  repeat match goal with |- _ /\ _ => split end;
    try (intros [[x y] z] Hp); try intros z;
    rewrite ?upright_frame_lifted, ?upright_frame;
    unfold height_of, on_quadric in *; cbn [fst snd] in *;
    try (apply v3_eq); lra.
Qed.

(** C2 (what the code does).  With [turbineParams] as the program
    initialises it (foundationRadius 8, foundationHeight 2), the quadrics
    drawn in the turbine's frame are the foundation's cylinder and two
    caps, then the tower's.  The foundation cylinder spans the heights -1
    to +1 and its top cap lies at height +1, half the foundation's height
    above the ground, not at 0.  The tower's axis is the vertical through
    the origin; the tower starts at height 2 = foundationHeight and ends
    at 82. *)
Theorem foundation_and_tower_placement (tex : Textures) (g : Globals) :
  exists fnd fnd_bottom fnd_top twr twr_bottom twr_top : Frame,
    quadrics (trace (drawWindTurbine turbineParams tex g))
    = [ (gluCylinder 8 8 2 32 1, fnd);
        (gluDisk 0 8 32 1, fnd_bottom);
        (gluDisk 0 8 32 1, fnd_top);
        (gluCylinder 3.5 1.8 80 24 1, twr);
        (gluDisk 0 3.5 24 1, twr_bottom);
        (gluDisk 0 1.8 24 1, twr_top) ]
    /\ (forall p, on_quadric (gluCylinder 8 8 2 32 1) p ->
                  -1 <= height_of (fnd p) <= 1)
    /\ (forall p, on_quadric (gluDisk 0 8 32 1) p ->
                  height_of (fnd_bottom p) = -1)
    /\ (forall p, on_quadric (gluDisk 0 8 32 1) p ->
                  height_of (fnd_top p) = 1)
    /\ (forall z, twr (0, 0, z) = (0, 2 + z, 0))
    /\ (forall p, on_quadric (gluCylinder 3.5 1.8 80 24 1) p ->
                  2 <= height_of (twr p) <= 82)
    /\ (forall p, on_quadric (gluDisk 0 3.5 24 1) p ->
                  height_of (twr_bottom p) = 2)
    /\ (forall p, on_quadric (gluDisk 0 1.8 24 1) p ->
                  height_of (twr_top p) = 82).
Proof.
  destruct (foundation_and_tower_frames turbineParams tex g)
    as (fnd & fnd_bottom & fnd_top & twr & twr_bottom & twr_top
        & E & H1 & H2 & H3 & H4 & H5 & H6 & H7).
  cbn [turbineParams foundationRadius foundationHeight baseRadius topRadius
         height segments] in *.
  exists fnd, fnd_bottom, fnd_top, twr, twr_bottom, twr_top.
  split; [exact E|].
  split; [intros p Hp; specialize (H1 p Hp); lra|].
  split; [intros p Hp; rewrite (H2 p Hp); lra|].
  split; [intros p Hp; rewrite (H3 p Hp); lra|].
  split; [exact H4|].
  split; [intros p Hp; specialize (H5 p Hp); lra|].
  split; [exact H6|].
  intros p Hp. rewrite (H7 p Hp). lra.
Qed.

(** ** The thresholds in single precision *)

(** For each of the hundred values [rf] can take, the four float
    comparisons [rf > 0.7f], [rf > 0.6f], [rf > 0.5f] and [rf > 0.95f]
    hold exactly when the draw modulo 100 exceeds 70, 60, 50 and 95. *)
Lemma rf_thresholds_binary32 :
  forallb
    (fun k =>
       Bool.eqb (SFltb (b32_literal 7 10) (b32_rf k)) (70 <? k)%Z
       && Bool.eqb (SFltb (b32_literal 6 10) (b32_rf k)) (60 <? k)%Z
       && Bool.eqb (SFltb (b32_literal 5 10) (b32_rf k)) (50 <? k)%Z
       && Bool.eqb (SFltb (b32_literal 95 100) (b32_rf k)) (95 <? k)%Z)
    (seqZ 0 100)
  = true.
Proof. vm_compute. reflexivity. Qed.

(** The real-number reading decides the same comparisons the same way. *)
Lemma rf_thresholds_real (k t : Z) :
  fgtb (IZR k / 100) (IZR t / 100) = (t <? k)%Z.
Proof.
  destruct (Z.ltb_spec t k) as [H | H].
  - apply fgtb_true. apply IZR_lt in H. lra.
  - apply fgtb_false. apply IZR_le in H. lra.
Qed.

(** C4's example on floats: 359.0f + 1.0f * 2.0f is 361.0f, which is not
    below 360.0f, and 361.0f - 360.0f is 1.0f. *)
Lemma blade_wrap_binary32 :
  b32_add (b32_of_int 359) (b32_mul (b32_of_int 1) (b32_of_int 2))
  = b32_of_int 361
  /\ SFltb (b32_of_int 361) (b32_of_int 360) = false
  /\ b32_sub (b32_of_int 361) (b32_of_int 360) = b32_of_int 1.
Proof. vm_compute. auto. Qed.

(** The quotient [drawBlade] computes when [bladeSegments] is 0: in single
    precision 45.0f / 0.0f is +infinity, a value and not a trap. *)
Lemma blade_segLen_binary32 :
  b32_div (b32_of_int 45) (b32_of_int 0) = S754_infinity false.
Proof. vm_compute. reflexivity. Qed.

(** ** Small runs *)

(** On the stream 0, 96, 192, ... the first cell draws 0.00 and makes one
    call; the second draws 0.96, overrides, and makes two. *)
Example calls_before_sample :
  calls_before (fun _ k => Z.of_nat (96 * k)) 1 = 1%nat
  /\ calls_before (fun _ k => Z.of_nat (96 * k)) 2 = 3%nat
  /\ overrides_before (fun _ k => Z.of_nat (96 * k)) 2 = 1%nat.
Proof.
  assert (fgtb (rf_at (fun _ k => Z.of_nat (96 * k)) 0) 0.95 = false) as E0.
  { apply fgtb_false. unfold rf_at.
    change (Z.rem (Z.of_nat (96 * 0)) 100) with 0%Z. lra. }
  assert (fgtb (rf_at (fun _ k => Z.of_nat (96 * k)) 1) 0.95 = true) as E1.
  { apply fgtb_true. unfold rf_at.
    change (Z.rem (Z.of_nat (96 * 1)) 100) with 96%Z. lra. }
  cbn [calls_before overrides_before]. rewrite E0. cbn [Nat.add].
  rewrite E1. auto.
Qed.

(** The wind-speed keys clamp: ['1'] at 0.2 gives 0.1, ['2'] at 4.9
    gives 5. *)
Example windSpeed_keys_clamp :
  (windSpeed <$> keyboardHandler "1" (set_windSpeed 0.2 globals0)) = Some 0.1
  /\ (windSpeed <$> keyboardHandler "2" (set_windSpeed 4.9 globals0))
     = Some 5.
Proof.
  split; simpl; f_equal.
  - unfold Rmax. destruct (Rle_dec _ _); lra.
  - unfold Rmin. destruct (Rle_dec _ _); lra.
Qed.

(** * Further properties of the code *)

(** ** The keyboard and the idle callback *)

Lemma keyboardHandler_other_fields (key : ascii) (g g' : Globals) :
  keyboardHandler key g = Some g' ->
  _angle g' = _angle g
  /\ speed (camera g') = speed (camera g)
  /\ pitch (camera g') = pitch (camera g)
  /\ yaw (camera g') = yaw (camera g)
  /\ (zoom (camera g') = zoom (camera g)
      \/ zoom (camera g') = Rmax 10 (zoom (camera g) - 2)
      \/ zoom (camera g') = Rmin 120 (zoom (camera g) + 2)
      \/ zoom (camera g') = 45)
  /\ (projectionMode g' = projectionMode g
      \/ projectionMode g' = Z.rem (projectionMode g + 1) 2).
Proof.
  destruct key as [[] [] [] [] [] [] [] []]; simpl; intros H;
    inversion H; subst; simpl; auto 10.
Qed.

Lemma update_other_fields (g : Globals) :
  camera (update g) = camera g
  /\ projectionMode (update g) = projectionMode g
  /\ lightingEnabled (update g) = lightingEnabled g
  /\ _angle (update g)
     = (if fgeb (_angle g + 0.02) 360 then _angle g + 0.02 - 360
        else _angle g + 0.02).
Proof.
  unfold update. destruct (animationEnabled g); repeat split; reflexivity.
Qed.

Lemma reachable_view (g : Globals) :
  reachable g ->
  0 <= _angle g < 360
  /\ 10 <= zoom (camera g) <= 120
  /\ (projectionMode g = 0%Z \/ projectionMode g = 1%Z)
  /\ speed (camera g) = 2.
Proof.
  induction 1 as [| g Hg (IA & IZ & IP & IS)
                 | key g g' Hg (IA & IZ & IP & IS) Hk
                 | key g Hg (IA & IZ & IP & IS)].
  - simpl. repeat split; auto; lra.
  - destruct (update_other_fields g) as (-> & -> & _ & ->).
    split; [|auto].
    destruct (fgeb (_angle g + 0.02) 360) eqn:E.
    + apply fgeb_true in E. lra.
    + apply fgeb_false in E. lra.
  - destruct (keyboardHandler_other_fields key g g' Hk)
      as (-> & -> & _ & _ & HZ & HP).
    split; [exact IA|]. split; [|split; [|exact IS]].
    + destruct HZ as [-> | [-> | [-> | ->]]]; [exact IZ | | | lra].
      * unfold Rmax. destruct (Rle_dec _ _); lra.
      * unfold Rmin. destruct (Rle_dec _ _); lra.
    + destruct HP as [-> | ->]; [exact IP|].
      destruct IP as [-> | ->]; [right | left]; reflexivity.
  - unfold specialKeys. simpl. auto.
Qed.

(** X1.  The scene angle [_angle] stays in [0,360) in every state the
    program can reach: the idle callback adds 0.02 and wraps once, and no
    key handler writes it. *)
Theorem scene_angle_stays_wrapped (g : Globals) :
  reachable g -> 0 <= _angle g < 360.
Proof. intros H. apply (reachable_view g H). Qed.

Lemma scene_angle_stays_wrapped_witness :
  0 <= _angle (update (update globals0)) < 360.
Proof.
  apply (scene_angle_stays_wrapped (update (update globals0))).
  apply reach_update, reach_update, reach_init.
Defined.

(** X2.  The camera zoom stays in [10,120] in every reachable state: ['+']
    and ['-'] clamp, ['r'] resets to 45, nothing else writes it; and the
    camera speed is always 2. *)
Theorem zoom_stays_clamped (g : Globals) :
  reachable g -> 10 <= zoom (camera g) <= 120 /\ speed (camera g) = 2.
Proof.
  intros H. destruct (reachable_view g H) as (_ & HZ & _ & HS). auto.
Qed.

Lemma zoom_stays_clamped_witness :
  10 <= zoom (camera (specialKeys GLUT_KEY_UP (update globals0))) <= 120
  /\ speed (camera (specialKeys GLUT_KEY_UP (update globals0))) = 2.
Proof.
  apply (zoom_stays_clamped (specialKeys GLUT_KEY_UP (update globals0))).
  apply reach_special, reach_update, reach_init.
Defined.

(** X3.  [projectionMode] is 0 or 1 in every reachable state, and there
    ['p'] is a toggle: it never exits, and pressing it twice gives the
    mode back. *)
Theorem projection_mode_toggles (g : Globals) :
  reachable g ->
  (projectionMode g = 0%Z \/ projectionMode g = 1%Z)
  /\ exists g1 g2,
       keyboardHandler "p" g = Some g1
       /\ keyboardHandler "p" g1 = Some g2
       /\ projectionMode g1 = (1 - projectionMode g)%Z
       /\ projectionMode g2 = projectionMode g.
Proof.
  intros H. destruct (reachable_view g H) as (_ & _ & HP & _).
  split; [exact HP|].
  eexists _, _. split; [reflexivity|]. split; [reflexivity|].
  simpl. destruct HP as [-> | ->]; split; reflexivity.
Qed.

Lemma projection_mode_toggles_witness :
  (projectionMode (update globals0) = 0%Z
   \/ projectionMode (update globals0) = 1%Z)
  /\ exists g1 g2,
       keyboardHandler "p" (update globals0) = Some g1
       /\ keyboardHandler "p" g1 = Some g2
       /\ projectionMode g1 = (1 - projectionMode (update globals0))%Z
       /\ projectionMode g2 = projectionMode (update globals0).
Proof.
  apply (projection_mode_toggles (update globals0)).
  apply reach_update, reach_init.
Defined.

(** X4.  Pausing composes with the animation: from a running state, a
    press of the space bar, any number of idle ticks and a second press
    give a running state whose blade angle, yaw, sway, accumulated time
    and wind speed are those at the first press, so the next tick
    continues the animation exactly where it stopped. *)
Theorem pause_then_resume (n : nat) (g : Globals) :
  animationEnabled g = true ->
  exists g1 g3,
    keyboardHandler " " g = Some g1
    /\ keyboardHandler " " (Nat.iter n update g1) = Some g3
    /\ animationEnabled g3 = true
    /\ bladeRotation g3 = bladeRotation g
    /\ nacelle_yaw g3 = nacelle_yaw g
    /\ towerSway g3 = towerSway g
    /\ timeAccumulator g3 = timeAccumulator g
    /\ windSpeed g3 = windSpeed g
    /\ bladeRotation (update g3) = bladeRotation (update g)
    /\ nacelle_yaw (update g3) = nacelle_yaw (update g)
    /\ towerSway (update g3) = towerSway (update g)
    /\ timeAccumulator (update g3) = timeAccumulator (update g).
Proof.
  intros E.
  exists (set_animationEnabled false g),
    (set_animationEnabled true
       (Nat.iter n update (set_animationEnabled false g))).
  assert (animationEnabled (set_animationEnabled false g) = false) as E1
    by reflexivity.
  destruct (iter_update_disabled n _ E1) as (F0 & F1 & F2 & F3 & F4).
  assert (windSpeed (Nat.iter n update (set_animationEnabled false g))
          = windSpeed g) as F5.
  { clear F0 F1 F2 F3 F4. induction n as [|n IH]; [reflexivity|].
    change (Nat.iter (S n) update (set_animationEnabled false g))
      with (update (Nat.iter n update (set_animationEnabled false g))).
    destruct (animationEnabled
                (Nat.iter n update (set_animationEnabled false g))) eqn:A.
    - destruct (update_enabled _ A) as (_ & _ & _ & _ & -> & _). exact IH.
    - destruct (update_disabled _ A) as (_ & _ & _ & _ & -> & _). exact IH. }
  split; [simpl; rewrite E; reflexivity|].
  split; [simpl; rewrite F0; reflexivity|].
  set (g3 := set_animationEnabled true
               (Nat.iter n update (set_animationEnabled false g))).
  assert (animationEnabled g3 = true) as E3 by reflexivity.
  assert (bladeRotation g3 = bladeRotation g) as B by exact F1.
  assert (nacelle_yaw g3 = nacelle_yaw g) as Y by exact F2.
  assert (towerSway g3 = towerSway g) as S by exact F3.
  assert (timeAccumulator g3 = timeAccumulator g) as T by exact F4.
  assert (windSpeed g3 = windSpeed g) as W by exact F5.
  destruct (update_enabled g3 E3) as (-> & -> & -> & -> & _).
  destruct (update_enabled g E) as (-> & -> & -> & -> & _).
  rewrite B, T, W. repeat split; assumption || reflexivity.
Qed.

Lemma pause_then_resume_witness :
  exists g1 g3,
    keyboardHandler " " (update globals0) = Some g1
    /\ keyboardHandler " " (Nat.iter 5 update g1) = Some g3
    /\ animationEnabled g3 = true
    /\ bladeRotation g3 = bladeRotation (update globals0)
    /\ nacelle_yaw g3 = nacelle_yaw (update globals0)
    /\ towerSway g3 = towerSway (update globals0)
    /\ timeAccumulator g3 = timeAccumulator (update globals0)
    /\ windSpeed g3 = windSpeed (update globals0)
    /\ bladeRotation (update g3) = bladeRotation (update (update globals0))
    /\ nacelle_yaw (update g3) = nacelle_yaw (update (update globals0))
    /\ towerSway (update g3) = towerSway (update (update globals0))
    /\ timeAccumulator (update g3)
       = timeAccumulator (update (update globals0)).
Proof. apply (pause_then_resume 5 (update globals0)). reflexivity. Defined.



(** X7.  [keyboardHandler] ends the program on ESC and on no other key. *)
Theorem only_escape_exits (key : ascii) (g : Globals) :
  keyboardHandler key g = None <-> key = "027"%char.
Proof.
  split.
  - destruct key as [[] [] [] [] [] [] [] []]; simpl; intros H;
      try discriminate H; reflexivity.
  - intros ->. reflexivity.
Qed.



(** ** The terrain generators *)

Lemma product_in_unit (x y : R) :
  -1 <= x <= 1 -> -1 <= y <= 1 -> -1 <= x * y <= 1.
Proof. intros Hx Hy. nra. Qed.

(** X9.  Every elevation of the generated heightfield lies within 10.5 of
    zero (3 + 6 + 1.5, the three amplitudes). *)
Theorem elevation_bounded (old : list (list R)) (i j : Z) :
  (0 <= i <= 50)%Z -> (0 <= j <= 50)%Z ->
  Rabs (at2 (generateTerrain old) i j) <= 10.5.
Proof.
  intros Hi Hj. destruct (generateTerrain_filled old) as (_ & _ & C).
  rewrite C by (unfold TERRAIN_SIZE; lia). unfold HEIGHT_SCALE.
  pose proof (product_in_unit _ _ (SIN_bound (IZR i * 0.3))
                (COS_bound (IZR j * 0.3))) as H1.
  pose proof (product_in_unit _ _ (SIN_bound (IZR i * 0.1))
                (SIN_bound (IZR j * 0.15))) as H2.
  pose proof (product_in_unit _ _ (SIN_bound (IZR i * 0.05))
                (COS_bound (IZR j * 0.08))) as H3.
  apply Rabs_le. lra.
Qed.

Lemma elevation_bounded_witness :
  Rabs (at2 (generateTerrain []) 50 0) <= 10.5.
Proof. apply (elevation_bounded [] 50 0); lia. Defined.

Lemma overrides_before_le (rand_seq : Z -> nat -> Z) (n : nat) :
  (overrides_before rand_seq n <= n)%nat.
Proof.
  induction n as [|n IH]; [reflexivity|]. cbn [overrides_before].
  destruct (fgtb _ 0.95); lia.
Qed.

Lemma generateMultiTextureTerrain_shape (rand_seq : Z -> nat -> Z)
    (terrainHeights : list (list R)) (st : list (list Z) * Rng) :
  (forall seed k, (0 <= rand_seq seed k)%Z) ->
  length (fst (generateMultiTextureTerrain rand_seq terrainHeights st))
  = 51%nat
  /\ (forall i, (0 <= i <= 50)%Z ->
        length (fst (generateMultiTextureTerrain rand_seq terrainHeights st)
                !!! Z.to_nat i) = 51%nat).
Proof.
  intros Hrand.
  destruct st as [terrainTextures rng]. unfold generateMultiTextureTerrain.
  destruct (fill_grid (TERRAIN_SIZE + 1) 0%Z
              (fun s : list (list Z) * Rng => fst s)
              (fun k s => snd s = mkRng 42 (calls_before rand_seq (Z.to_nat k)))
              (fun i s =>
                 (resize_row 0%Z i (TERRAIN_SIZE + 1) (fst s), snd s))
              (classifyCell rand_seq terrainHeights)
              (fun i j =>
                 label_code
                   (spec_label (at2 terrainHeights i j)
                      (rf_at rand_seq
                         (calls_before rand_seq (cell_rank i j)))
                      (label_of_code
                         (Z.rem
                            (rand_seq 42%Z
                               (S (calls_before rand_seq (cell_rank i j))))
                            4))))
              ltac:(unfold TERRAIN_SIZE; lia)
              ltac:(reflexivity)
              ltac:(intros i k s H; exact H))
    with (s := (resize (Z.to_nat (TERRAIN_SIZE + 1)) [] terrainTextures,
                srand 42 rng))
    as (H1 & _ & H3 & _).
  - intros i j [v r] Hi Hj HQ. simpl in HQ. subst r.
    rewrite classifyCell_step by exact Hrand. reflexivity.
  - intros i j [v r] Hi Hj HQ. simpl in HQ. subst r.
    rewrite classifyCell_step by exact Hrand. cbn [snd]. f_equal.
    replace (Z.to_nat (i * (TERRAIN_SIZE + 1) + j + 1))
      with (S (Z.to_nat (i * (TERRAIN_SIZE + 1) + j)))
      by (unfold TERRAIN_SIZE in *; lia).
    reflexivity.
  - apply length_resize.
  - reflexivity.
  - split; [exact H1|]. intros i Hi. apply H3. unfold TERRAIN_SIZE. lia.
Qed.

(** X10.  Whatever the vector held before, the label grid comes out 51 by
    51, the dimensions of the heightfield, and every cell holds one of the
    four codes 0..3. *)
Theorem label_grid_shape (rand_seq : Z -> nat -> Z)
    (old : list (list R)) (st : list (list Z) * Rng) (i j : Z) :
  (forall seed k, (0 <= rand_seq seed k)%Z) ->
  (0 <= i <= 50)%Z -> (0 <= j <= 50)%Z ->
  length (fst (generateMultiTextureTerrain rand_seq (generateTerrain old) st))
  = length (generateTerrain old)
  /\ length (fst (generateMultiTextureTerrain rand_seq (generateTerrain old)
                    st) !!! Z.to_nat i)
     = length (generateTerrain old !!! Z.to_nat i)
  /\ length (fst (generateMultiTextureTerrain rand_seq (generateTerrain old)
                    st)) = 51%nat
  /\ (0 <= at2 (fst (generateMultiTextureTerrain rand_seq
                       (generateTerrain old) st)) i j <= 3)%Z.
Proof.
  intros Hrand Hi Hj.
  destruct (generateMultiTextureTerrain_shape rand_seq (generateTerrain old)
              st Hrand) as [L Lr].
  destruct (generateTerrain_filled old) as (L' & Lr' & _).
  destruct (generateMultiTextureTerrain_filled rand_seq Hrand
              (generateTerrain old) st) as [_ C].
  rewrite L, L', (Lr i Hi), (Lr' i) by (unfold TERRAIN_SIZE; lia).
  split; [reflexivity|]. split; [reflexivity|]. split; [reflexivity|].
  rewrite C by (unfold TERRAIN_SIZE; lia).
  pose proof (label_code_range
                (spec_label (at2 (generateTerrain old) i j)
                   (rf_at rand_seq (calls_before rand_seq (cell_rank i j)))
                   (label_of_code
                      (Z.rem
                         (rand_seq 42%Z
                            (S (calls_before rand_seq (cell_rank i j))))
                         4)))).
  lia.
Qed.

Lemma label_grid_shape_witness :
  (0 <= at2 (fst (generateMultiTextureTerrain (fun _ k => Z.of_nat (96 * k))
                    (generateTerrain []) ([], mkRng 0 0))) 50 50 <= 3)%Z.
Proof.
  apply (label_grid_shape (fun _ k => Z.of_nat (96 * k)) []
           ([], mkRng 0 0) 50 50); lia.
Defined.

(** X11.  The classifier reseeds with 42 and overwrites every cell, so its
    result depends neither on the generator's earlier state nor on what
    the label vector held: running it from any two states gives the same
    grid and leaves the generator in the same state, after one call of
    [rand()] per cell (2601) plus one per override, so at most twice
    that. *)
Theorem classifier_rerun_identical (rand_seq : Z -> nat -> Z)
    (terrainHeights : list (list R)) (st st' : list (list Z) * Rng) :
  (forall seed k, (0 <= rand_seq seed k)%Z) ->
  generateMultiTextureTerrain rand_seq terrainHeights st
  = generateMultiTextureTerrain rand_seq terrainHeights st'
  /\ exists overrides : nat,
       snd (generateMultiTextureTerrain rand_seq terrainHeights st)
       = mkRng 42 (2601 + overrides)
       /\ (overrides <= 2601)%nat.
Proof.
  intros Hrand.
  destruct (generateMultiTextureTerrain_shape rand_seq terrainHeights st
              Hrand) as [L Lr].
  destruct (generateMultiTextureTerrain_shape rand_seq terrainHeights st'
              Hrand) as [L' Lr'].
  destruct (generateMultiTextureTerrain_filled rand_seq Hrand
              terrainHeights st) as [S C].
  destruct (generateMultiTextureTerrain_filled rand_seq Hrand
              terrainHeights st') as [S' C'].
  split.
  - apply injective_projections; [|rewrite S, S'; reflexivity].
    apply (grid_ext 51); try assumption.
    + intros k Hk. rewrite <- (Nat2Z.id k). apply Lr. lia.
    + intros k Hk. rewrite <- (Nat2Z.id k). apply Lr'. lia.
    + intros k l Hk Hl.
      specialize (C (Z.of_nat k) (Z.of_nat l)
                    ltac:(unfold TERRAIN_SIZE; lia)
                    ltac:(unfold TERRAIN_SIZE; lia)).
      specialize (C' (Z.of_nat k) (Z.of_nat l)
                     ltac:(unfold TERRAIN_SIZE; lia)
                     ltac:(unfold TERRAIN_SIZE; lia)).
      unfold at2 in C, C'. rewrite !Nat2Z.id in C, C'.
      rewrite C, C'. reflexivity.
  - exists (overrides_before rand_seq 2601).
    split; [|apply overrides_before_le].
    rewrite S, calls_before_count. reflexivity.
Qed.

Lemma classifier_rerun_identical_witness :
  generateMultiTextureTerrain (fun _ k => Z.of_nat (96 * k))
    (generateTerrain []) ([], mkRng 0 0)
  = generateMultiTextureTerrain (fun _ k => Z.of_nat (96 * k))
      (generateTerrain []) ([[3%Z]], mkRng 7 11).
Proof.
  apply (classifier_rerun_identical (fun _ k => Z.of_nat (96 * k))
           (generateTerrain []) ([], mkRng 0 0) ([[3%Z]], mkRng 7 11)).
  intros seed k. lia.
Defined.

(** X12.  What a stored label says about the ground under it.  In a cell
    whose draw did not trigger the override, code 2 occurs only below
    elevation -2, code 3 only below 2, code 1 only from 2 upwards and
    code 0 only in [-2,5); and from elevation 5 upwards the cell is always
    code 1. *)
Theorem label_tells_elevation_band (rand_seq : Z -> nat -> Z)
    (terrainHeights : list (list R)) (st : list (list Z) * Rng) (i j : Z) :
  (forall seed k, (0 <= rand_seq seed k)%Z) ->
  (0 <= i <= 50)%Z -> (0 <= j <= 50)%Z ->
  rf_at rand_seq (calls_before rand_seq (cell_rank i j)) <= 0.95 ->
  (at2 (fst (generateMultiTextureTerrain rand_seq terrainHeights st)) i j
   = 2%Z -> at2 terrainHeights i j < -2)
  /\ (at2 (fst (generateMultiTextureTerrain rand_seq terrainHeights st)) i j
      = 3%Z -> at2 terrainHeights i j < 2)
  /\ (at2 (fst (generateMultiTextureTerrain rand_seq terrainHeights st)) i j
      = 1%Z -> 2 <= at2 terrainHeights i j)
  /\ (at2 (fst (generateMultiTextureTerrain rand_seq terrainHeights st)) i j
      = 0%Z -> -2 <= at2 terrainHeights i j < 5)
  /\ (5 <= at2 terrainHeights i j ->
      at2 (fst (generateMultiTextureTerrain rand_seq terrainHeights st)) i j
      = 1%Z).
Proof.
  intros Hrand Hi Hj Hr.
  destruct (generateMultiTextureTerrain_filled rand_seq Hrand
              terrainHeights st) as [_ C].
  rewrite C by (unfold TERRAIN_SIZE; lia).
  unfold spec_label. apply fgtb_false in Hr. rewrite Hr. clear Hr C.
  unfold tier_label.
  generalize (at2 terrainHeights i j)
    (rf_at rand_seq (calls_before rand_seq (cell_rank i j))).
  intros h r.
  destruct (fltb h (-2)) eqn:E1;
    [apply fltb_true in E1
    |apply fltb_false in E1; destruct (fltb h 2) eqn:E2;
     [apply fltb_true in E2
     |apply fltb_false in E2; destruct (fltb h 5) eqn:E3;
      [apply fltb_true in E3 | apply fltb_false in E3]]];
    repeat match goal with
           | |- context [fgtb ?a ?b] => destruct (fgtb a b)
           end;
    cbn [label_code];
    repeat match goal with |- _ /\ _ => split end;
    intros H; first [lra | discriminate H | reflexivity | exfalso; lra].
Qed.

Lemma label_tells_elevation_band_witness :
  at2 (fst (generateMultiTextureTerrain (fun _ _ => 0%Z) [[7]]
              ([], mkRng 0 0))) 0 0 = 1%Z.
Proof.
  apply (label_tells_elevation_band (fun _ _ => 0%Z) [[7]]
           ([], mkRng 0 0) 0 0); try lia.
  - unfold rf_at. change (Z.rem 0 100) with 0%Z. lra.
  - change (at2 [[7]] 0 0) with 7. lra.
Defined.

(** ** drawTerrain *)

Lemma trace_for_gl_ext (n : Z) (body1 body2 : Z -> GL unit) :
  (forall i, (0 <= i < n)%Z -> trace (body1 i) = trace (body2 i)) ->
  trace (for_gl n body1) = trace (for_gl n body2).
Proof.
  intros Hb. rewrite !trace_for_gl. f_equal.
  apply map_ext_in. intros i Hi. apply list_elem_of_In in Hi.
  apply elem_of_seqZ in Hi. apply Hb. lia.
Qed.


(** X14.  The terrain is drawn with two textures only: a cell binds the
    grass texture when its label is 0 and the sand texture for every other
    label, and row 50 and column 50 of the label grid are never read.  So
    two label grids that agree on which of the first 50 by 50 cells are 0
    give the same drawing. *)
Theorem drawTerrain_two_textures (grassTexture sandTexture : Z)
    (terrainHeights : list (list R))
    (terrainTextures terrainTextures' : list (list Z)) :
  (forall i j, (0 <= i < 50)%Z -> (0 <= j < 50)%Z ->
               (at2 terrainTextures i j = 0%Z
                <-> at2 terrainTextures' i j = 0%Z)) ->
  trace (drawTerrain grassTexture sandTexture terrainHeights terrainTextures)
  = trace (drawTerrain grassTexture sandTexture terrainHeights
             terrainTextures').
Proof.
  intros Hsame. unfold drawTerrain. rewrite !trace_bind. f_equal. f_equal.
  apply trace_for_gl_ext. intros i Hi.
  apply trace_for_gl_ext. intros j Hj.
  cbn beta zeta. rewrite !trace_bind. f_equal.
  specialize (Hsame i j Hi Hj).
  destruct (Z.eqb_spec (at2 terrainTextures i j) 0) as [E | E];
    destruct (Z.eqb_spec (at2 terrainTextures' i j) 0) as [E' | E'];
    try reflexivity; exfalso; tauto.
Qed.

(** A grid of rock (1) against a grid of label 3, on 50 by 50 cells. *)
Lemma drawTerrain_two_textures_witness :
  trace (drawTerrain 1 2 (generateTerrain [])
           (replicate 50 (replicate 50 1%Z)))
  = trace (drawTerrain 1 2 (generateTerrain [])
             (replicate 50 (replicate 50 3%Z))).
Proof.
  apply (drawTerrain_two_textures 1 2 (generateTerrain [])
           (replicate 50 (replicate 50 1%Z))
           (replicate 50 (replicate 50 3%Z))).
  intros i j Hi Hj. unfold at2.
  rewrite !lookup_total_replicate_2 by lia. split; discriminate.
Defined.

(** ** The fallback texture *)

Lemma to_uchar_clamped (v : Z) :
  to_uchar (Z.max 0 (Z.min 255 v)) = Z.max 0 (Z.min 255 v).
Proof. unfold to_uchar. apply Z.mod_small. lia. Qed.

Lemma createProceduralTexture_loop (rand_seq : Z -> nat -> Z)
    (r g b variation : Z) (data0 : list Z) (seed : Z) (c0 : nat) (n : Z) :
  (0 <= n)%Z ->
  (3 * n <= Z.of_nat (length data0))%Z ->
  exists data,
    for_upto n (fun i st =>
      let '(data, rng) := st in
      let '(v, rng) := rand rand_seq rng in
      let data :=
        <[Z.to_nat (i * 3 + 0) :=
            to_uchar (Z.max 0 (Z.min 255
                        (r + Z.rem v variation - Z.quot variation 2)))]>
          data in
      let '(v, rng) := rand rand_seq rng in
      let data :=
        <[Z.to_nat (i * 3 + 1) :=
            to_uchar (Z.max 0 (Z.min 255
                        (g + Z.rem v variation - Z.quot variation 2)))]>
          data in
      let '(v, rng) := rand rand_seq rng in
      let data :=
        <[Z.to_nat (i * 3 + 2) :=
            to_uchar (Z.max 0 (Z.min 255
                        (b + Z.rem v variation - Z.quot variation 2)))]>
          data in
      (data, rng)) (data0, mkRng seed c0)
    = (data, mkRng seed (c0 + Z.to_nat (3 * n)))
    /\ length data = length data0
    /\ forall p c : Z,
         (0 <= p < n)%Z -> (0 <= c < 3)%Z ->
         data !!! Z.to_nat (p * 3 + c)
         = Z.max 0
             (Z.min 255
                ((if Z.eqb c 0 then r else if Z.eqb c 1 then g else b)
                 + Z.rem (rand_seq seed (c0 + Z.to_nat (p * 3 + c))%nat)
                     variation
                 - Z.quot variation 2)).
Proof.
  intros Hn Hlen.
  match goal with
  | |- exists data, for_upto n ?body ?s = _ /\ _ =>
      pose (P := fun (k : Z) (st : list Z * Rng) =>
        snd st = mkRng seed (c0 + Z.to_nat (3 * k))
        /\ length (fst st) = length data0
        /\ forall p c : Z,
             (0 <= p < k)%Z -> (0 <= c < 3)%Z ->
             fst st !!! Z.to_nat (p * 3 + c)
             = Z.max 0
                 (Z.min 255
                    ((if Z.eqb c 0 then r else if Z.eqb c 1 then g else b)
                     + Z.rem (rand_seq seed (c0 + Z.to_nat (p * 3 + c))%nat)
                         variation
                     - Z.quot variation 2)));
      assert (P n (for_upto n body s)) as HP
  end.
  { apply for_upto_invariant; [exact Hn | |].
    - unfold P. cbn [fst snd]. split; [f_equal; lia|].
      split; [reflexivity|]. intros p c Hp. lia.
    - intros k [data rng] Hk (HR & HL & HV). cbn [fst snd] in HR, HL, HV.
      subst rng. unfold P, rand. cbn [fst snd rng_seed rng_calls].
      rewrite !to_uchar_clamped.
      split; [f_equal; lia|].
      split; [rewrite !length_insert; exact HL|].
      intros p c Hp Hc.
      assert (c = 0 \/ c = 1 \/ c = 2)%Z as Hc3 by lia.
      rewrite !list_lookup_total_insert, !length_insert.
      destruct (Z.eq_dec p k) as [-> | Hne].
      + replace (c0 + Z.to_nat (3 * k))%nat
          with (c0 + Z.to_nat (k * 3 + 0))%nat by lia.
        replace (S (c0 + Z.to_nat (k * 3 + 0)))
          with (c0 + Z.to_nat (k * 3 + 1))%nat by lia.
        replace (S (c0 + Z.to_nat (k * 3 + 1)))
          with (c0 + Z.to_nat (k * 3 + 2))%nat by lia.
        destruct Hc3 as [-> | [-> | ->]]; cbn [Z.eqb];
          repeat case_decide; try reflexivity; exfalso; lia.
      + repeat case_decide; try (exfalso; lia). apply HV; lia. }
  destruct (for_upto n _ _) as [data rng].
  destruct HP as (HR & HL & HV). cbn [fst snd] in *.
  exists data. subst rng. auto.
Qed.

Lemma createProceduralTexture_some (rand_seq : Z -> nat -> Z)
    (r g b variation tex : Z) (garbage : list Z) (rng : Rng) :
  variation <> 0%Z ->
  exists data,
    createProceduralTexture rand_seq r g b variation tex garbage rng
    = Some (tex, data,
            mkRng (rng_seed rng) (rng_calls rng + Z.to_nat 49152))
    /\ length data = Z.to_nat 49152
    /\ forall p c : Z,
         (0 <= p < 16384)%Z -> (0 <= c < 3)%Z ->
         data !!! Z.to_nat (p * 3 + c)
         = Z.max 0
             (Z.min 255
                ((if Z.eqb c 0 then r else if Z.eqb c 1 then g else b)
                 + Z.rem
                     (rand_seq (rng_seed rng)
                        (rng_calls rng + Z.to_nat (p * 3 + c))%nat)
                     variation
                 - Z.quot variation 2)).
Proof.
  intros Hv. unfold createProceduralTexture.
  apply Z.eqb_neq in Hv. rewrite Hv. destruct rng as [seed c0].
  destruct (createProceduralTexture_loop rand_seq r g b variation
              (resize (Z.to_nat (texSize * texSize * 3)) 0%Z garbage)
              seed c0 (texSize * texSize)
              ltac:(unfold texSize; lia)
              ltac:(rewrite length_resize; unfold texSize; lia))
    as (data & E & HL & HV).
  cbv zeta in E. cbv zeta.
  rewrite E. exists data. rewrite length_resize in HL.
  split; [reflexivity|]. split; [exact HL|]. exact HV.
Qed.





(** ** The modelview stack along the turbine *)

Lemma transparent_nil : transparent 0 [].
Proof. intros rest. split; intros; reflexivity. Qed.

Lemma transparent_weaken (k k' : nat) (t : list GLcmd) :
  (k <= k')%nat -> transparent k t -> transparent k' t.
Proof.
  intros Hk Ht rest. destruct (Ht rest) as [H1 H2].
  split; [exact H1|]. intros limit d Hd. apply H2. lia.
Qed.

Lemma transparent_app (k : nat) (t1 t2 : list GLcmd) :
  transparent k t1 -> transparent k t2 -> transparent k (t1 ++ t2).
Proof.
  intros H1 H2 rest. rewrite <- app_assoc.
  destruct (H1 (t2 ++ rest)) as [A1 B1]. destruct (H2 rest) as [A2 B2].
  split.
  - intros cur stack. rewrite A1. apply A2.
  - intros limit d Hd. rewrite B1 by exact Hd. apply B2, Hd.
Qed.

Lemma transparent_inert (t : list GLcmd) :
  Forall (fun c => is_inert c = true) t -> transparent 0 t.
Proof.
  induction 1 as [|c t Hc _ IH]; [apply transparent_nil|].
  intros rest. destruct (IH rest) as [A B].
  split.
  - intros cur stack.
    destruct c; simpl in Hc; try discriminate; apply A.
  - intros limit d Hd.
    destruct c; simpl in Hc; try discriminate; apply B, Hd.
Qed.

Lemma transparent_for_gl (k : nat) (n : Z) (body : Z -> GL unit) :
  (forall i, transparent k (trace (body i))) ->
  transparent k (trace (for_gl n body)).
Proof.
  intros Hb. rewrite trace_for_gl.
  induction (seqZ 0 n) as [|i l IH]; simpl.
  - apply transparent_weaken with 0%nat; [lia | apply transparent_nil].
  - apply transparent_app; [apply Hb | exact IH].
Qed.

(** A block [glPushMatrix; moves; body; glPopMatrix] whose body is
    transparent is transparent, one level deeper. *)
Lemma transparent_block (k : nat) (moves body : list GLcmd) :
  Forall (fun c => match c with
                   | glTranslatef _ _ _ | glRotatef _ _ _ _
                   | glScalef _ _ _ => True
                   | _ => is_inert c = true
                   end) moves ->
  transparent k body ->
  transparent (S k) (glPushMatrix :: moves ++ body ++ [glPopMatrix]).
Proof.
  intros Hm Hb rest. split.
  - intros cur stack. cbn [app run].
    generalize cur at 1. revert Hm.
    induction 1 as [|c moves Hc _ IH]; intros cur'.
    + cbn [app]. rewrite <- app_assoc. destruct (Hb ([glPopMatrix] ++ rest)) as [A _].
      rewrite A. reflexivity.
    + cbn [app].
      destruct c; simpl in Hc; try discriminate; cbn [run]; apply IH.
  - intros limit d Hd. cbn [app stack_ok].
    rewrite (proj2 (Nat.ltb_lt d limit)) by lia.
    revert Hm. induction 1 as [|c moves Hc _ IH].
    + cbn [app]. rewrite <- app_assoc.
      destruct (Hb ([glPopMatrix] ++ rest)) as [_ B].
      rewrite B by lia. reflexivity.
    + cbn [app].
      destruct c; simpl in Hc; try discriminate; cbn [stack_ok]; apply IH.
Qed.

Lemma trace_quot (x y : R) : trace (quot x y) = [fdiv x y].
Proof. reflexivity. Qed.

(** Runs through a right-nested trace: explicit commands by computation,
    pieces already known to be transparent by their lemma. *)
Ltac seal_traces :=
  repeat match goal with
         | H : transparent _ (trace ?m) |- _ =>
             revert H; generalize (trace m); intros ? H
         end.

Ltac walk_trace :=
  repeat first
    [ progress cbn [run stack_ok app]
    | rewrite (proj2 (Nat.ltb_lt _ _)) by lia
    | match goal with
      | H : transparent _ ?t |- context [run _ _ (?t ++ ?r)] =>
          rewrite (proj1 (H r))
      | H : transparent _ ?t |- context [stack_ok _ _ (?t ++ ?r)] =>
          rewrite (proj2 (H r)) by lia
      end ].

Ltac open_trace :=
  repeat (rewrite trace_bind; cbn beta);
  rewrite ?trace_emit, ?trace_quot.

Ltac transparent_by_walk :=
  open_trace;
  seal_traces;
  intros rest; rewrite <- ?app_assoc;
  split; [intros cur stack | intros limit d Hd];
  walk_trace; reflexivity.

(** The same, after the loop of the routine has been shown transparent
    at depth [k]. *)
Ltac transparent_with_loop k :=
  open_trace;
  match goal with
  | |- context [trace (for_gl ?n ?body)] =>
      let Hl := fresh "Hl" in
      assert (forall m, transparent k (trace (for_gl m body))) as Hl;
      [intros ?; apply transparent_for_gl; intros ?; cbn beta
      |specialize (Hl n); transparent_by_walk]
  end.

Lemma applyTexture_transparent (textureID : Z) :
  transparent 0 (trace (applyTexture textureID)).
Proof. apply transparent_inert, applyTexture_inert. Qed.

Lemma drawEllipsoid_inert (a b c : R) (segments : Z) :
  Forall (fun c => is_inert c = true) (trace (drawEllipsoid a b c segments)).
Proof. unfold drawEllipsoid. forall_trace. Qed.

Lemma drawSolidCylinder_transparent (baseRadius topRadius height : R)
    (segments : Z) :
  transparent 1 (trace (drawSolidCylinder baseRadius topRadius height
                          segments)).
Proof. unfold drawSolidCylinder. transparent_by_walk. Qed.

Lemma drawBlade_transparent (tp : TurbineGeometry) (tex : Textures)
    (angleOffset : R) :
  transparent 1 (trace (drawBlade tp tex angleOffset)).
Proof.
  unfold drawBlade.
  pose proof (applyTexture_transparent (bladeTexture tex)) as Ha.
  transparent_with_loop 1%nat. transparent_by_walk.
Qed.

Lemma drawHub_transparent (tp : TurbineGeometry) (tex : Textures) :
  transparent 1 (trace (drawHub tp tex)).
Proof.
  unfold drawHub.
  pose proof (applyTexture_transparent (metalTexture tex)) as Ha.
  transparent_with_loop 1%nat. transparent_by_walk.
Qed.

Lemma drawRotorSystem_transparent (tp : TurbineGeometry) (tex : Textures)
    (g : Globals) :
  transparent 2 (trace (drawRotorSystem tp tex g)).
Proof.
  unfold drawRotorSystem.
  pose proof (drawHub_transparent tp tex) as Hh.
  pose proof (drawBlade_transparent tp tex) as Hb.
  transparent_with_loop 2%nat.
  match goal with
  | i : Z |- _ => specialize (Hb (IZR i * 120))
  end.
  transparent_by_walk.
Qed.

Lemma drawNacelle_transparent (tp : TurbineGeometry) (tex : Textures) :
  transparent 2 (trace (drawNacelle tp tex)).
Proof.
  unfold drawNacelle.
  pose proof (applyTexture_transparent (nacelleTexture tex)) as Ha.
  pose proof (transparent_inert _
                (drawEllipsoid_inert (nacelleLength tp) (nacelleHeight tp)
                   (nacelleWidth tp) 20)) as He.
  transparent_with_loop 1%nat. transparent_by_walk.
Qed.

Lemma drawTurbineTower_transparent (tp : TurbineGeometry) (tex : Textures) :
  transparent 2 (trace (drawTurbineTower tp tex)).
Proof.
  unfold drawTurbineTower.
  pose proof (applyTexture_transparent (metalTexture tex)) as Ha.
  pose proof (drawSolidCylinder_transparent (baseRadius tp) (topRadius tp)
                (height tp) (segments tp)) as Hc.
  transparent_by_walk.
Qed.

Lemma drawFoundation_transparent (tp : TurbineGeometry) (tex : Textures) :
  transparent 3 (trace (drawFoundation tp tex)).
Proof.
  unfold drawFoundation.
  pose proof (applyTexture_transparent (concreteTexture tex)) as Ha.
  pose proof (drawSolidCylinder_transparent (foundationRadius tp)
                (foundationRadius tp) (foundationHeight tp) 32) as Hc.
  pose proof (transparent_inert _
                (drawTorus_inert (foundationRadius tp * 1.1) 0.5 24 16))
    as Ht.
  transparent_by_walk.
Qed.

Lemma drawWindTurbine_transparent (tp : TurbineGeometry) (tex : Textures)
    (g : Globals) :
  transparent 4 (trace (drawWindTurbine tp tex g)).
Proof.
  unfold drawWindTurbine.
  pose proof (drawFoundation_transparent tp tex) as Hf.
  pose proof (drawTurbineTower_transparent tp tex) as Ht.
  pose proof (drawNacelle_transparent tp tex) as Hn.
  pose proof (drawRotorSystem_transparent tp tex g) as Hr.
  transparent_by_walk.
Qed.

(** X17.  [drawWindTurbine] is balanced on the modelview stack.  Run in
    any context it gives back exactly the modelview map and the saved maps
    it was given; and if four stack entries are free it raises no stack
    error: it never pops an entry it did not push and never nests deeper
    than four. *)
Theorem drawWindTurbine_balanced (tp : TurbineGeometry) (tex : Textures)
    (g : Globals) (cur : Frame) (stack : list Frame) (limit d : nat) :
  run cur stack (trace (drawWindTurbine tp tex g)) = (cur, stack)
  /\ ((d + 4 <= limit)%nat ->
      stack_ok limit d (trace (drawWindTurbine tp tex g)) = Some d).
Proof.
  destruct (drawWindTurbine_transparent tp tex g []) as [A B].
  rewrite app_nil_r in A, B. split; [apply A | intros Hd; apply B, Hd].
Qed.

Lemma drawWindTurbine_balanced_witness :
  stack_ok 32 1 (trace (drawWindTurbine turbineParams (mkTextures 1 2 3 4)
                          globals0)) = Some 1%nat.
Proof.
  apply (drawWindTurbine_balanced turbineParams (mkTextures 1 2 3 4) globals0
           (fun p => p) [] 32 1).
  lia.
Defined.

(** ** Decorations, ellipsoid and torus in general *)

Lemma Forall_omap_for_gl {B : Type} (f : GLcmd -> option B) (P : B -> Prop)
    (k : Z) (body : Z -> GL unit) :
  (forall i, (0 <= i < k)%Z -> Forall P (omap f (trace (body i)))) ->
  Forall P (omap f (trace (for_gl k body))).
Proof.
  intros Hb. rewrite trace_for_gl.
  assert (Forall (fun i => (0 <= i < k)%Z) (seqZ 0 k)) as Hl.
  { apply Forall_forall. intros i Hi. apply elem_of_seqZ in Hi. lia. }
  induction Hl as [|i l Hi _ IH]; simpl; [constructor|].
  rewrite omap_app. apply Forall_app. split; [apply Hb, Hi | exact IH].
Qed.

Lemma length_omap_for_gl {B : Type} (f : GLcmd -> option B) (k : Z)
    (body : Z -> GL unit) (m : nat) :
  (forall i, length (omap f (trace (body i))) = m) ->
  length (omap f (trace (for_gl k body))) = (Z.to_nat k * m)%nat.
Proof.
  intros Hb. rewrite trace_for_gl. rewrite <- (length_seqZ 0 k).
  induction (seqZ 0 k) as [|i l IH]; simpl; [reflexivity|].
  rewrite omap_app, length_app, Hb, IH. reflexivity.
Qed.

Lemma translations_inert (t : list GLcmd) :
  Forall (fun c => is_inert c = true) t -> translations t = [].
Proof.
  induction 1 as [|c t Hc _ IH]; [reflexivity|].
  destruct c; simpl in Hc; try discriminate; exact IH.
Qed.

Lemma on_circle (a r : R) :
  cos a * r * (cos a * r) + sin a * r * (sin a * r) = r * r.
Proof.
  replace (cos a * r * (cos a * r) + sin a * r * (sin a * r))
    with (r * r * ((sin a)² + (cos a)²)) by (unfold Rsqr; ring).
  rewrite sin2_cos2. ring.
Qed.

Lemma on_circle_scaled (a r s : R) :
  cos a * r * s * (cos a * r * s) + sin a * r * s * (sin a * r * s)
  = (s * r) * (s * r).
Proof.
  replace (cos a * r * s * (cos a * r * s) + sin a * r * s * (sin a * r * s))
    with (s * r * (s * r) * ((sin a)² + (cos a)²)) by (unfold Rsqr; ring).
  rewrite sin2_cos2. ring.
Qed.

(** X18.  The decorations sit on circles.  [drawHub] places its twelve
    bolts by twelve translations in the plane y = 0, each at distance
    0.8 * hubRadius from the hub's centre; [drawNacelle] places its eight
    vents by eight translations in the plane y = 0, each at distance
    0.9 * nacelleWidth from the nacelle's centre.  Neither routine
    translates anything else. *)
Theorem decorations_on_circles (tp : TurbineGeometry) (tex : Textures) :
  length (translations (trace (drawHub tp tex))) = 12%nat
  /\ Forall
       (fun v : V3 =>
          v.1.2 = 0
          /\ v.1.1 * v.1.1 + v.2 * v.2
             = (0.8 * hubRadius tp) * (0.8 * hubRadius tp))
       (translations (trace (drawHub tp tex)))
  /\ length (translations (trace (drawNacelle tp tex))) = 8%nat
  /\ Forall
       (fun v : V3 =>
          v.1.2 = 0
          /\ v.1.1 * v.1.1 + v.2 * v.2
             = (0.9 * nacelleWidth tp) * (0.9 * nacelleWidth tp))
       (translations (trace (drawNacelle tp tex))).
Proof.
  assert (forall id, translations (trace (applyTexture id)) = []) as Ha.
  { intros id. apply translations_inert, applyTexture_inert. }
  pose proof (translations_inert _
                (drawEllipsoid_inert (nacelleLength tp) (nacelleHeight tp)
                   (nacelleWidth tp) 20)) as He.
  unfold translations in *.
  split; [|split; [|split]].
  - unfold drawHub. open_trace. rewrite !omap_app, Ha.
    cbn [omap list_omap app]. rewrite ?app_nil_r.
    apply (length_omap_for_gl _ 12 _ 1). intros i. reflexivity.
  - unfold drawHub. open_trace. rewrite !omap_app, Ha.
    cbn [omap list_omap app]. rewrite ?app_nil_r.
    apply Forall_omap_for_gl. intros i Hi. cbn beta. open_trace.
    cbn [app omap list_omap fst quot]. constructor; [|constructor].
    cbn [fst snd]. split; [reflexivity|]. apply on_circle_scaled.
  - unfold drawNacelle. open_trace. rewrite !omap_app, Ha, He.
    cbn [omap list_omap app]. rewrite ?app_nil_r.
    apply (length_omap_for_gl _ 8 _ 1). intros i. reflexivity.
  - unfold drawNacelle. open_trace. rewrite !omap_app, Ha, He.
    cbn [omap list_omap app]. rewrite ?app_nil_r.
    apply Forall_omap_for_gl. intros i Hi. cbn beta. open_trace.
    cbn [app omap list_omap fst quot]. constructor; [|constructor].
    cbn [fst snd]. split; [reflexivity|].
    rewrite on_circle. ring.
Qed.

Lemma frac_unit (i n : Z) :
  (0 <= i <= n)%Z -> (0 < n)%Z -> 0 <= IZR i / IZR n <= 1.
Proof.
  intros [H0 H1] Hn. apply IZR_le in H0, H1. apply IZR_lt in Hn.
  split.
  - apply Rmult_le_reg_r with (IZR n); [exact Hn|].
    unfold Rdiv. rewrite Rmult_assoc, Rinv_l by lra. lra.
  - apply Rmult_le_reg_r with (IZR n); [exact Hn|].
    unfold Rdiv. rewrite Rmult_assoc, Rinv_l by lra. lra.
Qed.

Lemma unit_direction (u w : R) :
  cos u * cos w * (cos u * cos w) + sin u * sin u
  + cos u * sin w * (cos u * sin w) = 1.
Proof.
  replace (cos u * cos w * (cos u * cos w) + sin u * sin u
           + cos u * sin w * (cos u * sin w))
    with ((sin u)² + (cos u)² * ((sin w)² + (cos w)²))
    by (unfold Rsqr; ring).
  rewrite (sin2_cos2 w), Rmult_1_r. apply sin2_cos2.
Qed.

Lemma ellipsoid_point (a b c u w : R) :
  a <> 0 -> b <> 0 -> c <> 0 ->
  a * cos u * cos w / a * (a * cos u * cos w / a)
  + b * sin u / b * (b * sin u / b)
  + c * cos u * sin w / c * (c * cos u * sin w / c) = 1.
Proof.
  intros Ha Hb Hc.
  replace (a * cos u * cos w / a) with (cos u * cos w) by (field; exact Ha).
  replace (b * sin u / b) with (sin u) by (field; exact Hb).
  replace (c * cos u * sin w / c) with (cos u * sin w) by (field; exact Hc).
  apply unit_direction.
Qed.

(** X19.  Whatever the semi-axes (none zero) and the segment count, every
    vertex [drawEllipsoid] emits lies on the ellipsoid
    (x/a)^2 + (y/b)^2 + (z/c)^2 = 1, the normal sent with it has length
    exactly 1, and its texture coordinates lie in [0,1]. *)
Theorem drawEllipsoid_on_surface (a b c : R) (segments : Z) :
  a <> 0 -> b <> 0 -> c <> 0 ->
  Forall
    (fun v =>
       (v_position v).1.1 / a * ((v_position v).1.1 / a)
       + (v_position v).1.2 / b * ((v_position v).1.2 / b)
       + (v_position v).2 / c * ((v_position v).2 / c) = 1
       /\ norm (v_normal v) = 1
       /\ 0 <= (v_texcoord v).1 <= 1
       /\ 0 <= (v_texcoord v).2 <= 1)
    (vertices (trace (drawEllipsoid a b c segments))).
Proof.
  intros Ha Hb Hc. unfold vertices, drawEllipsoid.
  apply Forall_vertices_for_gl. intros i Hi n0 tc0.
  apply Forall_vertices_for_gl. intros j Hj n1 tc1.
  cbn [trace bind quot emit snd fst app vertices_from].
  assert (0 < segments)%Z as Hn by lia.
  pose proof (frac_unit i segments ltac:(lia) Hn) as Fi.
  pose proof (frac_unit (i + 1) segments ltac:(lia) Hn) as Fi1.
  pose proof (frac_unit j segments ltac:(lia) Hn) as Fj.
  pose proof (frac_unit (j + 1) segments ltac:(lia) Hn) as Fj1.
  repeat match goal with
         | |- Forall _ (_ :: _) => constructor
         | |- Forall _ [] => constructor
         end;
    cbn [v_position v_normal v_texcoord fst snd];
    (split; [apply ellipsoid_point; assumption|]);
    (split; [unfold norm; rewrite ellipsoid_point by assumption;
             apply sqrt_1|]);
    split; assumption.
Qed.

Lemma drawEllipsoid_on_surface_witness :
  Forall
    (fun v =>
       (v_position v).1.1 / 12 * ((v_position v).1.1 / 12)
       + (v_position v).1.2 / 4.5 * ((v_position v).1.2 / 4.5)
       + (v_position v).2 / 4 * ((v_position v).2 / 4) = 1
       /\ norm (v_normal v) = 1
       /\ 0 <= (v_texcoord v).1 <= 1
       /\ 0 <= (v_texcoord v).2 <= 1)
    (vertices (trace (drawEllipsoid 12 4.5 4 20))).
Proof. apply (drawEllipsoid_on_surface 12 4.5 4 20); lra. Defined.

Lemma M_PI_nonzero : 2 * M_PI <> 0.
Proof. unfold M_PI. lra. Qed.

Lemma torus_texcoord (i n : Z) :
  (0 <= i <= n)%Z -> (0 < n)%Z ->
  0 <= IZR i / IZR n * (2 * M_PI) / (2 * M_PI) <= 1.
Proof.
  intros Hi Hn.
  replace (IZR i / IZR n * (2 * M_PI) / (2 * M_PI)) with (IZR i / IZR n).
  - apply frac_unit; assumption.
  - apply IZR_lt in Hn. field. repeat split; try (unfold M_PI; lra); lra.
Qed.

(** X20.  For any radii with 0 <= minorRadius <= majorRadius, every
    vertex [drawTorus] emits lies at distance minorRadius from the central
    ring, the normal sent with it has length exactly 1 and points from the
    ring to the vertex (the vertex is a ring point plus minorRadius times
    the normal), and its texture coordinates lie in [0,1]. *)
Theorem drawTorus_on_surface (majorRadius minorRadius : R)
    (majorSegments minorSegments : Z) :
  0 <= minorRadius <= majorRadius ->
  Forall
    (fun v =>
       ring_distance majorRadius (v_position v) = minorRadius
       /\ norm (v_normal v) = 1
       /\ (exists u,
              v_position v
              = (majorRadius * cos u + minorRadius * (v_normal v).1.1,
                 majorRadius * sin u + minorRadius * (v_normal v).1.2,
                 minorRadius * (v_normal v).2))
       /\ 0 <= (v_texcoord v).1 <= 1
       /\ 0 <= (v_texcoord v).2 <= 1)
    (vertices (trace (drawTorus majorRadius minorRadius majorSegments
                        minorSegments))).
Proof.
  intros Hr. unfold vertices, drawTorus.
  apply Forall_vertices_for_gl. intros i Hi n0 tc0.
  apply Forall_vertices_for_gl. intros j Hj n1 tc1.
  cbn [trace bind quot emit snd fst app vertices_from].
  assert (0 < majorSegments)%Z as Hmaj by lia.
  assert (0 < minorSegments)%Z as Hmin by lia.
  pose proof (torus_texcoord i majorSegments ltac:(lia) Hmaj) as Fi.
  pose proof (torus_texcoord (i + 1) majorSegments ltac:(lia) Hmaj) as Fi1.
  pose proof (torus_texcoord j minorSegments ltac:(lia) Hmin) as Fj.
  pose proof (torus_texcoord (j + 1) minorSegments ltac:(lia) Hmin) as Fj1.
  repeat match goal with
         | |- Forall _ (_ :: _) => constructor
         | |- Forall _ [] => constructor
         end;
    cbn [v_position v_normal v_texcoord fst snd];
    (split; [apply torus_point_ring_distance; exact Hr|]);
    (split; [unfold norm;
             match goal with
             | |- sqrt (cos ?w * cos ?u * _ + _ + _) = 1 =>
                 replace (cos w * cos u * (cos w * cos u)
                          + cos w * sin u * (cos w * sin u)
                          + sin w * sin w)
                   with (cos w * cos u * (cos w * cos u) + sin w * sin w
                         + cos w * sin u * (cos w * sin u)) by ring;
                 rewrite unit_direction; apply sqrt_1
             end|]);
    (split; [match goal with
             | |- exists u, (_ * cos ?U, _, _) = _ => exists U
             end; apply v3_eq; ring|]);
    split; assumption.
Qed.

Lemma drawTorus_on_surface_witness :
  Forall
    (fun v =>
       ring_distance 8.8 (v_position v) = 0.5
       /\ norm (v_normal v) = 1
       /\ (exists u,
              v_position v
              = (8.8 * cos u + 0.5 * (v_normal v).1.1,
                 8.8 * sin u + 0.5 * (v_normal v).1.2,
                 0.5 * (v_normal v).2))
       /\ 0 <= (v_texcoord v).1 <= 1
       /\ 0 <= (v_texcoord v).2 <= 1)
    (vertices (trace (drawTorus 8.8 0.5 24 16))).
Proof. apply (drawTorus_on_surface 8.8 0.5 24 16); lra. Defined.

(** ** Where the rotor and the blades land *)

Lemma frames_of_app (sel : GLcmd -> bool) (cur : Frame) (stack : list Frame)
    (t1 t2 : list GLcmd) :
  frames_of sel cur stack (t1 ++ t2)
  = frames_of sel cur stack t1
    ++ frames_of sel (run cur stack t1).1 (run cur stack t1).2 t2.
Proof.
  revert cur stack. induction t1 as [|c t1 IH]; intros cur stack.
  - reflexivity.
  - cbn [app frames_of]. rewrite IH, <- app_assoc.
    change (c :: t1) with ([c] ++ t1). rewrite (run_app cur stack [c] t1).
    reflexivity.
Qed.

Lemma frames_of_none (sel : GLcmd -> bool) (cur : Frame)
    (stack : list Frame) (t : list GLcmd) :
  Forall (fun c => sel c = false) t -> frames_of sel cur stack t = [].
Proof.
  intros H. revert cur stack.
  induction H as [|c t Hc _ IH]; intros cur stack; [reflexivity|].
  cbn [frames_of]. rewrite Hc. apply IH.
Qed.

Lemma transparent_run (k : nat) (t : list GLcmd) (cur : Frame)
    (stack : list Frame) :
  transparent k t -> run cur stack t = (cur, stack).
Proof.
  intros H. destruct (H []) as [A _]. rewrite app_nil_r in A. apply A.
Qed.

(** A transparent piece that holds none of the selected commands can be
    skipped. *)
Lemma frames_of_skip (sel : GLcmd -> bool) (k : nat) (cur : Frame)
    (stack : list Frame) (t rest : list GLcmd) :
  transparent k t -> Forall (fun c => sel c = false) t ->
  frames_of sel cur stack (t ++ rest) = frames_of sel cur stack rest.
Proof.
  intros Ht Hn. rewrite frames_of_app, (frames_of_none _ _ _ _ Hn).
  rewrite (transparent_run k t cur stack Ht). reflexivity.
Qed.

Lemma frames_of_for_gl (sel : GLcmd -> bool) (k : nat) (cur : Frame)
    (stack : list Frame) (n : Z) (body : Z -> GL unit) :
  (forall i, transparent k (trace (body i))) ->
  frames_of sel cur stack (trace (for_gl n body))
  = concat (map (fun i => frames_of sel cur stack (trace (body i)))
              (seqZ 0 n)).
Proof.
  intros Hb. rewrite trace_for_gl.
  induction (seqZ 0 n) as [|i l IH]; [reflexivity|].
  cbn [map concat]. rewrite frames_of_app.
  rewrite (transparent_run k _ cur stack (Hb i)). cbn [fst snd].
  rewrite IH. reflexivity.
Qed.

Lemma rotate_about_y (a x y z : R) :
  rotate a 0 1 0 (x, y, z)
  = (cos (a * PI / 180) * x + sin (a * PI / 180) * z,
     y,
     - sin (a * PI / 180) * x + cos (a * PI / 180) * z).
Proof.
  unfold rotate.
  replace (0 * 0 + 1 * 1 + 0 * 0) with 1 by ring. rewrite sqrt_1.
  apply v3_eq; field.
Qed.

Lemma turn_keeps_radius (A x z : R) :
  (cos A * x + sin A * z) * (cos A * x + sin A * z)
  + (- sin A * x + cos A * z) * (- sin A * x + cos A * z)
  = x * x + z * z.
Proof.
  replace ((cos A * x + sin A * z) * (cos A * x + sin A * z)
           + (- sin A * x + cos A * z) * (- sin A * x + cos A * z))
    with ((x * x + z * z) * ((sin A)² + (cos A)²)) by (unfold Rsqr; ring).
  rewrite sin2_cos2. ring.
Qed.

(** X21.  The hub of the rotor.  The first sphere [drawWindTurbine] draws
    is the hub, of radius hubRadius; whatever the yaw, its centre lies at
    height foundationHeight + height, the top of the tower, and at
    horizontal distance 0.6 * nacelleLength from the tower's axis, turned
    about that axis by [nacelle_yaw] degrees. *)
Theorem hub_placement (tp : TurbineGeometry) (tex : Textures)
    (g : Globals) :
  exists hub : Frame,
    head (frames_of is_sphere (fun p => p) []
            (trace (drawWindTurbine tp tex g)))
    = Some (glutSolidSphere (hubRadius tp) 16 16, hub)
    /\ hub (0, 0, 0)
       = (cos (nacelle_yaw g * PI / 180) * (nacelleLength tp * 0.6),
          foundationHeight tp + height tp,
          - sin (nacelle_yaw g * PI / 180) * (nacelleLength tp * 0.6))
    /\ height_of (hub (0, 0, 0)) = foundationHeight tp + height tp
    /\ (hub (0, 0, 0)).1.1 * (hub (0, 0, 0)).1.1
       + (hub (0, 0, 0)).2 * (hub (0, 0, 0)).2
       = (0.6 * nacelleLength tp) * (0.6 * nacelleLength tp).
Proof.
  exists (fun p =>
            translate 0 (foundationHeight tp + height tp) 0
              (rotate (nacelle_yaw g) 0 1 0
                 (translate (nacelleLength tp * 0.6) 0 0 p))).
  split.
  - unfold drawWindTurbine, drawRotorSystem, drawHub. open_trace.
    rewrite <- ?app_assoc.
    assert (Forall (fun c => is_sphere c = false)
              (trace (drawFoundation tp tex))) as Nf
      by (unfold drawFoundation, drawSolidCylinder; forall_trace).
    assert (Forall (fun c => is_sphere c = false)
              (trace (drawTurbineTower tp tex))) as Nt
      by (unfold drawTurbineTower, drawSolidCylinder; forall_trace).
    assert (Forall (fun c => is_sphere c = false)
              (trace (drawNacelle tp tex))) as Nn
      by (unfold drawNacelle; forall_trace).
    assert (Forall (fun c => is_sphere c = false)
              (trace (applyTexture (metalTexture tex)))) as Na
      by forall_trace.
    generalize (drawFoundation_transparent tp tex)
      (drawTurbineTower_transparent tp tex)
      (drawNacelle_transparent tp tex)
      (applyTexture_transparent (metalTexture tex)).
    revert Nf Nt Nn Na.
    generalize (trace (drawFoundation tp tex))
      (trace (drawTurbineTower tp tex)) (trace (drawNacelle tp tex))
      (trace (applyTexture (metalTexture tex))).
    repeat match goal with
           | |- context [trace (for_gl ?n ?b)] =>
               generalize (trace (for_gl n b))
           end.
    intros bolts blades tf tt tn ta Nf Nt Nn Na Hf Ht Hn Ha.
    cbn [app frames_of is_sphere run fst snd].
    rewrite (frames_of_skip _ _ _ _ _ _ Hf Nf).
    cbn [app frames_of is_sphere run fst snd].
    rewrite (frames_of_skip _ _ _ _ _ _ Ht Nt).
    cbn [app frames_of is_sphere run fst snd].
    rewrite (frames_of_skip _ _ _ _ _ _ Hn Nn).
    cbn [app frames_of is_sphere run fst snd].
    rewrite (frames_of_skip _ _ _ _ _ _ Ha Na).
    cbn [app frames_of is_sphere run fst snd head].
    reflexivity.
  - assert (translate 0 (foundationHeight tp + height tp) 0
              (rotate (nacelle_yaw g) 0 1 0
                 (translate (nacelleLength tp * 0.6) 0 0 (0, 0, 0)))
            = (cos (nacelle_yaw g * PI / 180) * (nacelleLength tp * 0.6),
               foundationHeight tp + height tp,
               - sin (nacelle_yaw g * PI / 180) * (nacelleLength tp * 0.6)))
      as E.
    { cbn [translate]. rewrite rotate_about_y. cbn [translate].
      apply v3_eq; ring. }
    rewrite E. split; [reflexivity|]. split; [reflexivity|].
    cbn [fst snd].
    replace (cos (nacelle_yaw g * PI / 180) * (nacelleLength tp * 0.6)
             * (cos (nacelle_yaw g * PI / 180) * (nacelleLength tp * 0.6))
             + - sin (nacelle_yaw g * PI / 180) * (nacelleLength tp * 0.6)
               * (- sin (nacelle_yaw g * PI / 180)
                  * (nacelleLength tp * 0.6)))
      with (0.6 * nacelleLength tp * (0.6 * nacelleLength tp)
            * ((sin (nacelle_yaw g * PI / 180))²
               + (cos (nacelle_yaw g * PI / 180))²))
      by (unfold Rsqr; ring).
    rewrite sin2_cos2. ring.
Qed.

Lemma blade_width_square (h t : R) :
  0 <= t <= 1 ->
  h * (1 - t * 0.8) * (h * (1 - t * 0.8)) <= h * h.
Proof.
  intros Ht.
  assert (0 <= (1 - t * 0.8) * (1 - t * 0.8) <= 1) as Hq by nra.
  replace (h * (1 - t * 0.8) * (h * (1 - t * 0.8)))
    with (h * h * ((1 - t * 0.8) * (1 - t * 0.8))) by ring.
  pose proof (Rle_0_sqr h) as Hh. unfold Rsqr in Hh. nra.
Qed.

(** A blade vertex after the twist: its height is unchanged and its
    distance from the blade's axis is that of the untwisted corner. *)
Lemma blade_vertex (tw y1 x y z w h : R) :
  x * x = w * w -> z * z = w * 0.15 * (w * 0.15) -> w * w <= h * h ->
  height_of (translate 0 y1 0 (rotate tw 0 1 0 (x, y, z))) = y + y1
  /\ (translate 0 y1 0 (rotate tw 0 1 0 (x, y, z))).1.1
     * (translate 0 y1 0 (rotate tw 0 1 0 (x, y, z))).1.1
     + (translate 0 y1 0 (rotate tw 0 1 0 (x, y, z))).2
       * (translate 0 y1 0 (rotate tw 0 1 0 (x, y, z))).2
     <= 1.0225 * (h * h).
Proof.
  intros Hx Hz Hw. rewrite rotate_about_y. cbn [translate height_of fst snd].
  split; [reflexivity|].
  replace ((cos (tw * PI / 180) * x + sin (tw * PI / 180) * z + 0)
           * (cos (tw * PI / 180) * x + sin (tw * PI / 180) * z + 0)
           + (- sin (tw * PI / 180) * x + cos (tw * PI / 180) * z + 0)
             * (- sin (tw * PI / 180) * x + cos (tw * PI / 180) * z + 0))
    with ((cos (tw * PI / 180) * x + sin (tw * PI / 180) * z)
          * (cos (tw * PI / 180) * x + sin (tw * PI / 180) * z)
          + (- sin (tw * PI / 180) * x + cos (tw * PI / 180) * z)
            * (- sin (tw * PI / 180) * x + cos (tw * PI / 180) * z))
    by ring.
  rewrite turn_keeps_radius, Hx, Hz. lra.
Qed.

Lemma Forall_omap_concat {A B : Type} (f : A -> option B) (P : B -> Prop)
    (chunks : list (list A)) :
  Forall (fun q => Forall P (omap f q)) chunks ->
  Forall P (omap f (concat chunks)).
Proof.
  induction 1 as [|q chunks Hq _ IH]; [constructor|].
  cbn [concat]. rewrite omap_app. apply Forall_app. auto.
Qed.

Lemma length_omap_concat {A B : Type} (f : A -> option B) (m : nat)
    (chunks : list (list A)) :
  Forall (fun q => length (omap f q) = m) chunks ->
  length (omap f (concat chunks)) = (length chunks * m)%nat.
Proof.
  induction 1 as [|q chunks Hq _ IH]; [reflexivity|].
  cbn [concat]. rewrite omap_app, length_app, Hq, IH. reflexivity.
Qed.

